(** * mkv_player: subtitle parsing, cue lookup and caption overlay

    A shallow embedding of [src/mkv_player.py] (and of the playback loop it
    shares with [src/mkv_player_v2.py]) together with the properties that the
    specification states about it.

    Conventions of the embedding.
    - A Python [str] is a Rocq [string]; a character is an 8-bit [ascii] read
      as the Unicode code point of the same number (U+0000 .. U+00FF).  The
      character classes below are CPython's, restricted to that range.
    - A Python [int] is a [Z]; a Python [float] is a primitive binary64
      [float], so that rounding and overflow are the interpreter's.
    - An exception is a value of [exn]; a call that may raise returns a
      [res].  The [while] loop of the parser is run with fuel, and the fuel
      given is shown to suffice; the [while True] loop of the player runs
      over the list of what the outside answers, pass after pass.
    - A numpy array lives in a buffer of the [heap] of a [world], and a
      Python name for it is the address of the buffer; what the program
      prints, reads, draws, shows and saves is recorded in the [trace].
      Calls that only ask are not recorded: their answers are inputs.
    - The font of cv2 is a parameter: the size of a rendered line and what
      drawing a text leaves of each pixel. *)

From stdpp Require Import base list.
From Stdlib Require Import ZArith QArith Qround Floats String Ascii Lia Bool.
From Stdlib Require Import DecimalString.
Import ListNotations.

Close Scope Q_scope.

Local Open Scope bool_scope.
Local Open Scope string_scope.

(** ** Exceptions and results *)

Inductive exn : Type :=
| ValueError
| OverflowError
| OSError.   (* with its subclasses: FileNotFoundError, IsADirectoryError, ... *)

Inductive res (A : Type) : Type :=
| Ok (a : A)
| Raise (e : exn).
Arguments Ok {A} a.
Arguments Raise {A} e.

Definition bind {A B : Type} (r : res A) (k : A -> res B) : res B :=
  match r with
  | Ok a => k a
  | Raise e => Raise e
  end.

(** ** The part of Python's [str] that the player uses *)

Module PyStr.

Definition ord (c : ascii) : N := N_of_ascii c.

Definition between (lo hi n : N) : bool := (lo <=? n)%N && (n <=? hi)%N.

(** [Py_UNICODE_ISSPACE]: what [str.strip()] removes. *)
Definition isspace (c : ascii) : bool :=
  let n := ord c in
  between 9 13 n || between 28 32 n || (n =? 133)%N || (n =? 160)%N.

(** [Py_UNICODE_ISLINEBREAK]: where [str.splitlines()] cuts. *)
Definition islinebreak (c : ascii) : bool :=
  let n := ord c in
  between 10 13 n || between 28 30 n || (n =? 133)%N.

(** [Py_UNICODE_ISDIGIT]: the ASCII digits and the superscripts 1, 2, 3. *)
Definition isdigit_char (c : ascii) : bool :=
  let n := ord c in
  between 48 57 n || (n =? 178)%N || (n =? 179)%N || (n =? 185)%N.

(** The decimal value of a character that [int()] takes as a digit. *)
Definition decimal (c : ascii) : option Z :=
  let n := ord c in
  if between 48 57 n then Some (Z.of_N n - 48)%Z else None.

(** White space around the literal given to [int()]: [Py_ISSPACE] below
    127, and the Unicode spaces above it, which [int()] first turns into a
    blank. *)
Definition int_space (c : ascii) : bool :=
  let n := ord c in
  between 9 13 n || (n =? 32)%N || (n =? 133)%N || (n =? 160)%N.

(** Truth value of a string: [bool(s)]. *)
Definition truthy (s : string) : bool :=
  match s with
  | EmptyString => false
  | String _ _ => true
  end.

Fixpoint all_chars (p : ascii -> bool) (s : string) : bool :=
  match s with
  | EmptyString => true
  | String c s' => p c && all_chars p s'
  end.

Fixpoint lstrip_with (p : ascii -> bool) (s : string) : string :=
  match s with
  | EmptyString => EmptyString
  | String c s' => if p c then lstrip_with p s' else s
  end.

Fixpoint rstrip_with (p : ascii -> bool) (s : string) : string :=
  match s with
  | EmptyString => EmptyString
  | String c s' =>
      match rstrip_with p s' with
      | EmptyString => if p c then EmptyString else String c EmptyString
      | r => String c r
      end
  end.

(** [s.strip()] *)
Definition strip (s : string) : string :=
  rstrip_with isspace (lstrip_with isspace s).

(** [s.rstrip(chars)] for a one-character [chars]. *)
Definition rstrip_char (ch : ascii) (s : string) : string :=
  rstrip_with (Ascii.eqb ch) s.

(** [s.isdigit()] *)
Definition isdigit (s : string) : bool :=
  truthy s && all_chars isdigit_char s.

(** [sub in s] *)
Fixpoint contains (sub s : string) : bool :=
  String.prefix sub s ||
  match s with
  | EmptyString => false
  | String _ s' => contains sub s'
  end.

(** [s.split(sep)] for a non-empty [sep]: cut at each occurrence, taken
    from the left and not overlapping.  [skip] counts the characters of an
    occurrence still to be passed over, [cur] is the piece being built. *)
Fixpoint split_aux (sep : string) (skip : nat) (cur s : string) : list string :=
  match s with
  | EmptyString => [cur]
  | String c s' =>
      match skip with
      | S k => split_aux sep k cur s'
      | O =>
          if String.prefix sep s
          then cur :: split_aux sep (String.length sep - 1) EmptyString s'
          else split_aux sep 0 (cur ++ String c EmptyString) s'
      end
  end.

Definition split (sep s : string) : list string := split_aux sep 0 EmptyString s.

(** [s.splitlines()]: a line ends at a line break, a carriage return and
    the line feed after it count once, and what follows the last break is a
    line only when it is not empty. *)
Fixpoint splitlines_aux (cur : string) (after_cr : bool) (s : string) : list string :=
  match s with
  | EmptyString => if truthy cur then [cur] else []
  | String c s' =>
      if after_cr && Ascii.eqb c "010"%char then splitlines_aux EmptyString false s'
      else if islinebreak c then cur :: splitlines_aux EmptyString (Ascii.eqb c "013"%char) s'
      else splitlines_aux (cur ++ String c EmptyString) false s'
  end.

Definition splitlines (s : string) : list string := splitlines_aux EmptyString false s.

(** [int(s)] in base ten.  After optional white space and an optional
    sign come decimal digits, with single underscores allowed between two
    digits, then optional white space to the end.  [None] is [ValueError]. *)
Fixpoint int_digits (acc : Z) (after_underscore : bool) (s : string) : option Z :=
  match s with
  | EmptyString => if after_underscore then None else Some acc
  | String c s' =>
      match decimal c with
      | Some d => int_digits (acc * 10 + d) false s'
      | None =>
          if after_underscore then None
          else if Ascii.eqb c "_"%char then int_digits acc true s'
          else if all_chars int_space s then Some acc else None
      end
  end.

Definition int_unsigned (s : string) : option Z :=
  match s with
  | EmptyString => None
  | String c _ =>
      match decimal c with
      | Some _ => int_digits 0 false s
      | None => None
      end
  end.

Definition int_literal (s : string) : option Z :=
  match lstrip_with int_space s with
  | String "+"%char s' => int_unsigned s'
  | String "-"%char s' => option_map Z.opp (int_unsigned s')
  | s' => int_unsigned s'
  end.

(** [sys.int_info.default_max_str_digits]: since CPython 3.11 a literal
    with more digits than this is refused with [ValueError], whatever its
    value.  The digits are counted as they stand, leading zeros too; the
    sign, the underscores and the white space are not counted. *)
Definition max_str_digits : nat := 4300.

Fixpoint digit_count (s : string) : nat :=
  match s with
  | EmptyString => 0
  | String c s' =>
      match decimal c with
      | Some _ => S (digit_count s')
      | None => digit_count s'
      end
  end.

Definition int (s : string) : option Z :=
  match int_literal s with
  | Some z => if (max_str_digits <? digit_count s)%nat then None else Some z
  | None => None
  end.

End PyStr.

(** ** The part of Python's [float] arithmetic that the player uses *)

Module PyFloat.

(** [float(n)] for an [int] [n]: the nearest binary64 value, ties to
    even; [OverflowError] when that is out of range. *)
Definition of_int (n : Z) : res float :=
  let f := SF2Prim (binary_normalize prec emax n 0 false) in
  if is_infinity f then Raise OverflowError else Ok f.

(** [n / y] for an [int] [n] and a non-zero [float] [y]. *)
Definition int_truediv (n : Z) (y : float) : res float :=
  bind (of_int n) (fun x => Ok (x / y)%float).

(** [n + y] for an [int] [n] and a [float] [y]. *)
Definition int_add (n : Z) (y : float) : res float :=
  bind (of_int n) (fun x => Ok (x + y)%float).

End PyFloat.

(** ** [parse_timecode] *)

(** [hours * 3600 + minutes * 60 + seconds + ms / 1000.0], the operands
    being the four [int]s read from the time code. *)
Definition total_seconds (hours minutes seconds ms : Z) : res float :=
  bind (PyFloat.int_truediv ms 1000%float)
       (PyFloat.int_add (hours * 3600 + minutes * 60 + seconds)%Z).

(** The body of the [try] block. *)
Definition parse_timecode_try (time_str : string) : res float :=
  match PyStr.split "," time_str with
  | [hms; ms] =>
      match map PyStr.int (PyStr.split ":" hms) with
      | [Some hours; Some minutes; Some seconds] =>
          match PyStr.int ms with
          | Some msv => total_seconds hours minutes seconds msv
          | None => Raise ValueError
          end
      | _ => Raise ValueError
      end
  | _ => Raise ValueError
  end.

(** [except Exception as exc: raise ValueError(...) from exc] *)
Definition parse_timecode (time_str : string) : res float :=
  match parse_timecode_try time_str with
  | Ok total => Ok total
  | Raise _ => Raise ValueError
  end.

(** ** [parse_srt] *)

(** A cue is the tuple [(start_time, end_time, text_lines)]. *)
Definition cue : Type := float * float * list string.

(** What a call does: it returns, it raises, or the fuel of the model ran
    out before it did either. *)
Inductive outcome (A : Type) : Type :=
| Returned (a : A)
| Raised (e : exn)
| OutOfFuel.
Arguments Returned {A} a.
Arguments Raised {A} e.
Arguments OutOfFuel {A}.

(** [content[idx]], read only under the guard [idx < len(content)]. *)
Definition item (content : list string) (idx : nat) : string :=
  default EmptyString (content !! idx).

(** [while idx < len(content) and content[idx].strip(): lines.append(...); idx += 1],
    [rest] being [content[idx:]]. *)
Fixpoint collect_lines (rest : list string) (idx : nat) (lines : list string)
  : nat * list string :=
  match rest with
  | [] => (idx, lines)
  | l :: rest' =>
      if PyStr.truthy (PyStr.strip l)
      then collect_lines rest' (S idx) (lines ++ [PyStr.rstrip_char "013"%char l])%list
      else (idx, lines)
  end.

(** [while idx < len(content) and not content[idx].strip(): idx += 1] *)
Fixpoint skip_blank (rest : list string) (idx : nat) : nat :=
  match rest with
  | [] => idx
  | l :: rest' =>
      if PyStr.truthy (PyStr.strip l) then idx else skip_blank rest' (S idx)
  end.

(** How one pass through the body of the outer [while] ends. *)
Inductive pass : Type :=
| Again (idx : nat) (cues : list cue)   (* next test of the loop condition *)
| Break (cues : list cue)
| Throw (e : exn).

(** The body of the outer loop, entered with [idx < len(content)]. *)
Definition srt_pass (content : list string) (idx : nat) (cues : list cue) : pass :=
  if negb (PyStr.truthy (PyStr.strip (item content idx))) then Again (S idx) cues
  else
    let idx := if PyStr.isdigit (PyStr.strip (item content idx)) then S idx else idx in
    if (List.length content <=? idx)%nat then Break cues
    else
      let timing := PyStr.strip (item content idx) in
      let idx := S idx in
      if negb (PyStr.contains "-->" timing) then Again idx cues
      else
        match map PyStr.strip (PyStr.split "-->" timing) with
        | [start_str; end_str] =>
            match bind (parse_timecode start_str) (fun start_time =>
                  bind (parse_timecode end_str) (fun end_time =>
                  Ok (start_time, end_time))) with
            | Raise ValueError => Again idx cues
            | Raise e => Throw e
            | Ok (start_time, end_time) =>
                let '(idx, lines) := collect_lines (drop idx content) idx [] in
                let cues := (cues ++ [(start_time, end_time, lines)])%list in
                Again (skip_blank (drop idx content) idx) cues
            end
        | _ => Throw ValueError   (* the unpacking of the split *)
        end.

Fixpoint srt_loop (fuel : nat) (content : list string) (idx : nat) (cues : list cue)
  : outcome (list cue) :=
  if (List.length content <=? idx)%nat then Returned cues
  else
    match fuel with
    | O => OutOfFuel
    | S fuel' =>
        match srt_pass content idx cues with
        | Again idx' cues' => srt_loop fuel' content idx' cues'
        | Break cues' => Returned cues'
        | Throw e => Raised e
        end
    end.

(** The cues of a text already split into lines. *)
Definition parse_lines (content : list string) : outcome (list cue) :=
  srt_loop (List.length content) content 0 [].

(** What a path that exists names: a file that [open()] opens, with the
    text that [f.read()] returns for it (decoded, undecodable bytes
    dropped), or something that [open()] refuses with an [OSError], such
    as a directory or a file that may not be read. *)
Inductive entry : Type :=
| Readable (text : string)
| Unreadable.

(** The files the player can see: [None] for a path of which
    [os.path.exists] says that it does not exist. *)
Definition filesystem : Type := string -> option entry.

(** [parse_srt(path)]: what it prints, and how it ends. *)
Definition parse_srt (fs : filesystem) (path : string)
  : list string * outcome (list cue) :=
  match fs path with
  | None =>
      (["Subtitle file '" ++ path ++ "' does not exist. Continuing without subtitles."],
       Returned [])
  | Some Unreadable => ([], Raised OSError)
  | Some (Readable text) => ([], parse_lines (PyStr.splitlines text))
  end.

(** ** [find_active_cue] *)

Fixpoint find_active_cue (cues : list cue) (current_time : float) : option (list string) :=
  match cues with
  | [] => None
  | (start, end_, lines) :: cues' =>
      if (start <=? current_time)%float && (current_time <=? end_)%float
      then Some lines
      else find_active_cue cues' current_time
  end.

(** ** Frames, buffers and the calls of cv2 *)

(** A pixel is the list of its channel values (8-bit, 0 .. 255) and a frame
    is the list of its rows, top row first. *)
Abbreviation pixel := (list Z).
Abbreviation frame := (list (list pixel)).

(** [frame.shape[:2]]: height and width. *)
Definition shape2 (f : frame) : Z * Z :=
  (Z.of_nat (List.length f), Z.of_nat (List.length (default [] (head f)))).

(** The pixel at column [x] of row [y], if the frame has one there. *)
Definition pixel_at (f : frame) (x y : nat) : option pixel :=
  match f !! y with
  | Some row => row !! x
  | None => None
  end.

(** A frame recomputed pixel by pixel, each pixel from its own old value
    and its coordinates (column, row). *)
Definition map_pixels (g : Z -> Z -> pixel -> pixel) (f : frame) : frame :=
  imap (fun y row => imap (fun x p => g (Z.of_nat x) (Z.of_nat y) p) row) f.

(** Arrays live in buffers; a Python reference to an array is the address
    of its buffer, so that two names for one array share every change. *)
Definition addr : Type := nat.

(** What the program does to the outside, in order: what it prints, the
    frames it reads, what it draws, what it shows and what it writes.  The
    calls that only ask and change nothing ([cv2.getTextSize], [cap.get],
    [cv2.waitKey], [os.path.exists]) leave no event: what they answer is an
    input of the embedding (the font, the fields of a pass, the files). *)
Inductive event : Type :=
| Print (s : string)
| CapRead (ret : option frame)
| Rectangle (img : addr) (pt1 pt2 : Z * Z) (color : list Z)
| AddWeighted (src1 : addr) (alpha : Q) (src2 : addr) (beta gamma : Q) (dst : addr)
| PutText (img : addr) (text : string) (org : Z * Z)
| Imshow (winname : string) (img : frame)
| Imwrite (filename : string) (img : frame).

Record world : Type := World { heap : list frame; trace : list event }.

Definition emit (e : event) (w : world) : world :=
  World (heap w) (trace w ++ [e])%list.

(** A new buffer holding [f]; the address of the new buffer. *)
Definition alloc (f : frame) (w : world) : world * addr :=
  (World (heap w ++ [f])%list (trace w), List.length (heap w)).

(** [a.copy()] *)
Definition np_copy (w : world) (a : addr) : world * addr :=
  alloc (heap w !!! a) w.

(** Writing through a reference. *)
Definition update (a : addr) (g : frame -> frame) (w : world) : world :=
  World (alter g a (heap w)) (trace w).

(** [cv2.rectangle(img, pt1, pt2, color, -1)]: every pixel between the two
    corners, corners included, takes the colour; channels past the colour's
    last component take 0.  Pixels the frame does not have are not drawn. *)
Definition in_rect (pt1 pt2 : Z * Z) (x y : Z) : bool :=
  (Z.min (fst pt1) (fst pt2) <=? x)%Z && (x <=? Z.max (fst pt1) (fst pt2))%Z &&
  (Z.min (snd pt1) (snd pt2) <=? y)%Z && (y <=? Z.max (snd pt1) (snd pt2))%Z.

Definition paint (color : list Z) (p : pixel) : pixel :=
  imap (fun i _ => nth i color 0%Z) p.

Definition fill_rect (pt1 pt2 : Z * Z) (color : list Z) (f : frame) : frame :=
  map_pixels (fun x y p => if in_rect pt1 pt2 x y then paint color p else p) f.

Definition cv_rectangle (w : world) (img : addr) (pt1 pt2 : Z * Z) (color : list Z) : world :=
  emit (Rectangle img pt1 pt2 color) (update img (fill_rect pt1 pt2 color) w).

(** [cvRound]: to the nearest integer, a tie to the even one. *)
Definition cvRound (q : Q) : Z :=
  let lo := Qfloor q in
  match Qcompare (q - inject_Z lo)%Q (1 # 2)%Q with
  | Lt => lo
  | Gt => (lo + 1)%Z
  | Eq => if Z.even lo then lo else (lo + 1)%Z
  end.

(** [saturate_cast<uchar>] *)
Definition saturate_cast (q : Q) : Z := Z.max 0 (Z.min 255 (cvRound q)).

Definition weighted (alpha beta gamma : Q) (a b : Z) : Z :=
  saturate_cast (inject_Z a * alpha + inject_Z b * beta + gamma)%Q.

Definition add_weighted (f1 : frame) (alpha : Q) (f2 : frame) (beta gamma : Q) : frame :=
  zip_with (zip_with (zip_with (weighted alpha beta gamma))) f1 f2.

(** [cv2.addWeighted(src1, alpha, src2, beta, gamma, dst)] with a [dst] of
    the sources' size and type: the sum is stored in the buffer of [dst].
    The weights are the rationals that the [float] arguments denote (one
    half is one of them), and the sum of two 8-bit values so weighted is
    exact before it is rounded. *)
Definition cv_addWeighted (w : world) (src1 : addr) (alpha : Q) (src2 : addr)
    (beta gamma : Q) (dst : addr) : world :=
  emit (AddWeighted src1 alpha src2 beta gamma dst)
       (update dst (fun _ => add_weighted (heap w !!! src1) alpha (heap w !!! src2) beta gamma) w).

(** [max(xs)] and [sum(xs)] for a list of [int]s; [max] of no value raises
    and is written 0 here, the player never asks for it. *)
Definition py_max (xs : list Z) : Z :=
  match xs with
  | [] => 0%Z
  | x :: xs' => fold_left Z.max xs' x
  end.

Definition py_sum (xs : list Z) : Z := fold_left Z.add xs 0%Z.

(** [os.path.join(a, b)] on a POSIX system. *)
Definition path_join (a b : string) : string :=
  match b with
  | String "/"%char _ => b
  | _ =>
      if negb (PyStr.truthy a) || String.prefix "/" (string_of_list_ascii (rev (list_ascii_of_string a)))
      then a ++ b
      else a ++ "/" ++ b
  end.

(** ** The vocabulary of the properties *)

(** [t] lies in the closed interval from [s] to [e]: the test that
    [find_active_cue] makes. *)
Definition within (s e t : float) : bool := ((s <=? t) && (t <=? e))%float.

Definition active (c : cue) (t : float) : bool := within c.1.1 c.1.2 t.

(** A line holds the separator at most once when its split has at most
    two pieces. *)
Definition one_arrow (l : string) : Prop :=
  (List.length (PyStr.split "-->" (PyStr.strip l)) <= 2)%nat.

(** The text below a timing line: the lines up to the first blank one,
    each without its trailing carriage returns. *)
Fixpoint text_run (rest : list string) : list string :=
  match rest with
  | [] => []
  | l :: rest' =>
      if PyStr.truthy (PyStr.strip l)
      then PyStr.rstrip_char "013"%char l :: text_run rest'
      else []
  end.

(** Line [p] begins a block: it is the first line, or the line before it
    is blank. *)
Definition block_start (content : list string) (p : nat) : Prop :=
  match p with
  | O => True
  | S q => exists b, content !! q = Some b /\ PyStr.truthy (PyStr.strip b) = false
  end.

(** Line [i] is where a block has its timing line: [i] begins the block,
    or the line before it does and is an index line. *)
Definition timing_place (content : list string) (i : nat) : Prop :=
  block_start content i \/
  match i with
  | O => False
  | S p =>
      block_start content p /\
      exists d, content !! p = Some d /\ PyStr.isdigit (PyStr.strip d) = true
  end.




Definition nl : string := String "010" "".

(** The block of the specification's example. *)
Definition known_good_block : string :=
  "00:00:01,500 --> 00:00:03,000" ++ nl ++ "Hello" ++ nl ++ "World" ++ nl ++ nl.

(** A cue whose end is before its start, with an index line. *)
Definition degenerate_text : string :=
  "1" ++ nl ++ "00:00:05,000 --> 00:00:01,000" ++ nl ++ "late" ++ nl.


(** A cue whose timing line holds the separator twice. *)
Definition double_arrow_text : string :=
  "1" ++ nl ++ "00:00:01,000 --> 00:00:02,000 --> 00:00:03,000" ++ nl ++ "Hello" ++ nl.

(** The specification's example of a malformed time code, followed by a
    well-formed cue. *)
Definition malformed_then_good : string :=
  "1" ++ nl ++ "00:00:01,5x0 --> 00:00:03,000" ++ nl ++ "Hello" ++ nl ++ nl ++
  "2" ++ nl ++ "00:00:04,000 --> 00:00:05,000" ++ nl ++ "Bye" ++ nl.

(** A line without the separator where a timing line should be, followed
    by a well-formed cue. *)
Definition noise_then_good : string :=
  "1" ++ nl ++ "no timing here" ++ nl ++ nl ++
  "2" ++ nl ++ "00:00:04,000 --> 00:00:05,000" ++ nl ++ "Bye" ++ nl.



Definition is_u8 (v : Z) : bool := (0 <=? v)%Z && (v <=? 255)%Z.

(** Every channel of every pixel is an 8-bit value. *)
Definition valid_frame (f : frame) : bool := forallb (forallb (forallb is_u8)) f.

(** Height, width of each row and number of channels of each pixel. *)
Definition shape3 (f : frame) : list (list nat) := map (map (@List.length Z)) f.

(** The sum of a list of integers, from the right. *)
Definition sumZ (xs : list Z) : Z := fold_right Z.add 0%Z xs.

(** One half of black and one half of the old value, stored as 8 bits. *)
Definition half_black (v : Z) : Z :=
  saturate_cast ((1 # 2) * inject_Z 0 + (1 # 2) * inject_Z v)%Q.

(** The frame with the black rectangle blended in at one half. *)
Definition blended (pt1 pt2 : Z * Z) (f : frame) : frame :=
  add_weighted (fill_rect pt1 pt2 [0; 0; 0]%Z f) (1 # 2)%Q f (1 - (1 # 2))%Q 0%Q.


(** The frame that [cap.read()] delivered last. *)
Definition last_decoded (tr : list event) : option frame :=
  fold_left (fun acc e => match e with CapRead (Some f) => Some f | _ => acc end) tr None.

(** Every image handed to [cv2.imwrite] is the frame that [cap.read()]
    delivered last before the call. *)
Definition screenshots_raw (tr : list event) : Prop :=
  forall pre path img post,
    tr = (pre ++ Imwrite path img :: post)%list -> last_decoded pre = Some img.

(** Events that neither deliver a frame nor save one. *)
Definition quiet (e : event) : bool :=
  match e with
  | CapRead _ | Imwrite _ _ => false
  | _ => true
  end.

(** [wd'] comes after [wd]: the buffers of [wd] are in [wd'] as they
    were, and the events between the two are quiet. *)
Definition extends (wd wd' : world) : Prop :=
  (forall a g, heap wd !! a = Some g -> heap wd' !! a = Some g) /\
  exists evs, trace wd' = (trace wd ++ evs)%list /\ forallb quiet evs = true.

(** ** A small font and a small frame, for examples *)

(** Two columns a character, three rows a line. *)
Definition demo_text_size (line : string) : Z * Z :=
  (2 * Z.of_nat (String.length line), 3)%Z.

(** The text as a white box standing on its origin. *)
Definition demo_put_text_px (text : string) (org : Z * Z) (x y : Z) (p : pixel) : pixel :=
  if (org.1 <=? x)%Z && (x <? org.1 + 2 * Z.of_nat (String.length text))%Z &&
     (org.2 - 3 <? y)%Z && (y <=? org.2)%Z
  then map (fun _ => 255%Z) p
  else p.

(** Forty rows of thirty grey pixels of one channel. *)
Definition demo_frame : frame := repeat (repeat [200%Z] 30) 40.

Section Player.

(** The font of cv2 is not part of the program.  [text_size line] is
    [cv2.getTextSize(line, FONT_HERSHEY_SIMPLEX, 0.6, 2)[0]], the width and
    height of the rendered line; [put_text_px text org x y p] is what
    [cv2.putText(img, text, org, FONT_HERSHEY_SIMPLEX, 0.6, (255, 255, 255), 2, LINE_AA)]
    leaves at column [x], row [y] of [img] where [p] was. *)
Variable text_size : string -> Z * Z.
Variable put_text_px : string -> Z * Z -> Z -> Z -> pixel -> pixel.

Definition cv_putText (w : world) (img : addr) (text : string) (org : Z * Z) : world :=
  emit (PutText img text org) (update img (map_pixels (put_text_px text org)) w).

(** ** [overlay_subtitle] *)

Definition line_spacing : Z := 10.
Definition margin_bottom : Z := 20.

(** [for line, size in zip(lines, text_sizes): ...] *)
Fixpoint draw_lines (wd : world) (result : addr) (w y : Z)
    (items : list (string * (Z * Z))) : world :=
  match items with
  | [] => wd
  | (line, (line_width, line_height)) :: items' =>
      let x := ((w - line_width) / 2)%Z in
      let wd := cv_putText wd result line (x, y + line_height)%Z in
      draw_lines wd result w (y + line_height + line_spacing)%Z items'
  end.

Definition overlay_subtitle (wd : world) (frame_ : addr) (lines : list string)
  : world * addr :=
  let '(wd, result) := np_copy wd frame_ in
  let '(h, w) := shape2 (heap wd !!! result) in
  match lines with
  | [] => (wd, result)
  | _ :: _ =>
      let text_sizes := map text_size lines in
      let max_width := py_max (map fst text_sizes) in
      let total_text_height :=
        (py_sum (map snd text_sizes)
         + (Z.of_nat (List.length lines) - 1) * line_spacing)%Z in
      let y_start := (h - margin_bottom - total_text_height)%Z in
      let x_start := ((w - max_width) / 2)%Z in
      let rect_x1 := (x_start - 10)%Z in
      let rect_y1 := (y_start - 5)%Z in
      let rect_x2 := (x_start + max_width + 10)%Z in
      let rect_y2 := (y_start + total_text_height + 5)%Z in
      let '(wd, overlay) := np_copy wd result in
      let wd := cv_rectangle wd overlay (rect_x1, rect_y1) (rect_x2, rect_y2) [0; 0; 0]%Z in
      let alpha := (1 # 2)%Q in
      let wd := cv_addWeighted wd overlay alpha result (1 - alpha)%Q 0%Q result in
      let wd := draw_lines wd result w y_start (zip lines text_sizes) in
      (wd, result)
  end.

(** ** The playback loop of [main] *)

(** What the outside answers during one pass through the loop: the frame
    that [cap.read()] would deliver ([None] at the end of the video), the
    position [cap.get(cv2.CAP_PROP_POS_MSEC)], the code that
    [cv2.waitKey(delay)] returns, and the stamp
    [datetime.now().strftime("%Y%m%d_%H%M%S_%f")[:-3]]. *)
Record tick : Type := Tick {
  t_read : option frame;
  t_pos_msec : float;
  t_key : Z;
  t_now : string
}.

Record player : Type := Player {
  paused : bool;
  current_frame : option addr
}.

Definition window_name : string := "MKV Player".

(** The keys: [key = cv2.waitKey(delay) & 0xFF], then the [if] chain,
    [cur] being the buffer that [current_frame] names. *)
Definition on_key (output_dir : string) (tk : tick) (wd : world) (st : player)
    (cur : addr) : world * option player :=
  let key := Z.land (t_key tk) 255 in
  if (key =? 113)%Z || (key =? 27)%Z then (emit (Print "Quitting...") wd, None)
  else if (key =? 32)%Z then (wd, Some (Player (negb (paused st)) (current_frame st)))
  else if (key =? 115)%Z then
    let filename := "screenshot_" ++ t_now tk ++ ".png" in
    let filepath := path_join output_dir filename in
    let wd := emit (Imwrite filepath (heap wd !!! cur)) wd in
    (emit (Print ("Saved screenshot to " ++ filepath)) wd, Some st)
  else (wd, Some st).

(** From [display_frame = current_frame.copy()] to the end of the pass,
    [cur] being the buffer that [current_frame] names. *)
Definition show_and_react (cues : list cue) (output_dir : string) (tk : tick)
    (wd : world) (st : player) (cur : addr) : world * option player :=
  let '(wd, display_frame) := np_copy wd cur in
  let current_time := (t_pos_msec tk / 1000)%float in
  let '(wd, display_frame) :=
    match cues with
    | [] => (wd, display_frame)
    | _ :: _ =>
        match find_active_cue cues current_time with
        | Some (l :: ls) => overlay_subtitle wd display_frame (l :: ls)
        | _ => (wd, display_frame)
        end
    end in
  let wd := emit (Imshow window_name (heap wd !!! display_frame)) wd in
  on_key output_dir tk wd st cur.

(** One pass through the body of [while True]; [None] is [break]. *)
Definition loop_pass (cues : list cue) (output_dir : string) (tk : tick)
    (wd : world) (st : player) : world * option player :=
  let fetched :=
    if paused st then Some (wd, st)
    else
      match t_read tk with
      | None => None
      | Some f =>
          let '(wd, a) := alloc f (emit (CapRead (Some f)) wd) in
          Some (wd, Player (paused st) (Some a))
      end in
  match fetched with
  | None => (emit (Print "End of video.") (emit (CapRead None) wd), None)
  | Some (wd, st) =>
      match current_frame st with
      | None => (wd, None)
      | Some cur => show_and_react cues output_dir tk wd st cur
      end
  end.

(** The loop over what the outside answers, pass after pass; it stops at a
    [break], or with the loop still running when the answers are used up. *)
Fixpoint main_loop (cues : list cue) (output_dir : string) (ticks : list tick)
    (wd : world) (st : player) : world * option player :=
  match ticks with
  | [] => (wd, Some st)
  | tk :: ticks' =>
      match loop_pass cues output_dir tk wd st with
      | (wd', Some st') => main_loop cues output_dir ticks' wd' st'
      | (wd', None) => (wd', None)
      end
  end.

(** The state in which [main] enters the loop. *)
Definition initial_player : player := Player false None.

(** ** The caption, call by call *)

(** The block of text: [max_width] and [total_text_height]. *)
Definition block_size (lines : list string) : Z * Z :=
  let text_sizes := map text_size lines in
  (py_max (map fst text_sizes),
   py_sum (map snd text_sizes) + (Z.of_nat (List.length lines) - 1) * line_spacing)%Z.

(** The two corners given to [cv2.rectangle], for a frame of height [h]
    and width [w]. *)
Definition caption_rect (h w : Z) (lines : list string) : (Z * Z) * (Z * Z) :=
  let '(max_width, total_text_height) := block_size lines in
  let y_start := (h - margin_bottom - total_text_height)%Z in
  let x_start := ((w - max_width) / 2)%Z in
  ((x_start - 10, y_start - 5)%Z,
   (x_start + max_width + 10, y_start + total_text_height + 5)%Z).

(** The calls of [cv2.putText] that the loop over the lines makes: the
    text and the origin of each. *)
Fixpoint text_calls (w y : Z) (items : list (string * (Z * Z))) : list (string * (Z * Z)) :=
  match items with
  | [] => []
  | (line, (line_width, line_height)) :: items' =>
      (line, ((w - line_width) / 2, y + line_height)%Z)
        :: text_calls w (y + line_height + line_spacing)%Z items'
  end.

(** A frame with the texts of such calls drawn on it, in order. *)
Definition text_drawn (calls : list (string * (Z * Z))) (f : frame) : frame :=
  fold_left (fun g call => map_pixels (put_text_px call.1 call.2) g) calls f.

(** What the calls leave of a pixel at column [x], row [y]. *)
Definition text_px (calls : list (string * (Z * Z))) (x y : Z) (p : pixel) : pixel :=
  fold_left (fun q call => put_text_px call.1 call.2 x y q) calls p.

(** No call draws at column [x], row [y]. *)
Definition text_free (calls : list (string * (Z * Z))) (x y : Z) : Prop :=
  Forall (fun call => forall p, put_text_px call.1 call.2 x y p = p) calls.

(** The rectangle and the calls of [cv2.putText] for [lines] on [f]. *)
Definition caption_rect_of (f : frame) (lines : list string) : (Z * Z) * (Z * Z) :=
  caption_rect (shape2 f).1 (shape2 f).2 lines.

Definition caption_calls (f : frame) (lines : list string) : list (string * (Z * Z)) :=
  text_calls (shape2 f).2
    ((shape2 f).1 - margin_bottom - (block_size lines).2)%Z
    (zip lines (map text_size lines)).

(** The caption of [lines] on a frame [f]. *)
Definition captioned (f : frame) (lines : list string) : frame :=
  let '(pt1, pt2) := caption_rect_of f lines in
  text_drawn (caption_calls f lines) (blended pt1 pt2 f).

(** The buffer that [current_frame] names holds the frame read last. *)
Definition holds_last_decoded (wd : world) (st : player) : Prop :=
  forall a, current_frame st = Some a ->
    exists img, heap wd !! a = Some img /\ last_decoded (trace wd) = Some img.

(** ** The rest of [main] *)

(** [str(n)] for a natural number. *)
Definition py_str_nat (n : nat) : string := NilEmpty.string_of_uint (Nat.to_uint n).

(** [int(x)] for a [float] [x]: the integer part, towards zero;
    [ValueError] for a NaN and [OverflowError] for an infinity. *)
Definition int_of_float (x : float) : res Z :=
  match Prim2SF x with
  | S754_nan => Raise ValueError
  | S754_infinity _ => Raise OverflowError
  | S754_zero _ => Ok 0%Z
  | S754_finite s m e =>
      let v := if (0 <=? e)%Z then (Zpos m * 2 ^ e)%Z else (Zpos m / 2 ^ (- e))%Z in
      Ok (if s then (- v)%Z else v)
  end.

(** [fps = cap.get(cv2.CAP_PROP_FPS)], [if fps <= 0: fps = 25], then
    [delay = int(1000 / fps)]. *)
Definition frame_delay (fps : float) : res Z :=
  let fps := if (fps <=? 0)%float then 25%float else fps in
  int_of_float (1000 / fps)%float.

(** [s.rfind(ch)], [None] for -1. *)
Fixpoint rfind (ch : ascii) (s : string) : option nat :=
  match s with
  | EmptyString => None
  | String c s' =>
      match rfind ch s' with
      | Some j => Some (S j)
      | None => if Ascii.eqb c ch then Some 0%nat else None
      end
  end.

(** [os.path.splitext(p)] on a POSIX system: the extension starts at the
    last dot of the last component, unless only dots stand before it
    there. *)
Definition splitext (p : string) : string * string :=
  match rfind "." p with
  | None => (p, EmptyString)
  | Some dotIndex =>
      let filenameIndex := match rfind "/" p with Some sepIndex => S sepIndex | None => 0%nat end in
      if (filenameIndex <=? dotIndex)%nat &&
         negb (PyStr.all_chars (Ascii.eqb ".")
                 (String.substring filenameIndex (dotIndex - filenameIndex) p))
      then (String.substring 0 dotIndex p,
            String.substring dotIndex (String.length p - dotIndex) p)
      else (p, EmptyString)
  end.

(** The arguments as [argparse] hands them over: [--video] is required,
    [--subtitle] is [None] when absent, [--output-dir] has its default. *)
Record args : Type := Args {
  a_video : string;
  a_subtitle : option string;
  a_output_dir : string
}.

(** What [cv2.VideoCapture(path)] gives: whether it is opened, the frame
    rate it reports, and what it and the keyboard answer pass after pass. *)
Record capture : Type := Capture {
  isOpened : bool;
  cap_fps : float;
  cap_ticks : list tick
}.

(** What [main] does to the outside: the events of the loop and of
    [parse_srt], and the calls made around them.  A call that raises is
    recorded as made. *)
Inductive call : Type :=
| Did (e : event)
| Makedirs (path : string)
| VideoCapture (path : string)
| NamedWindow (name : string)
| Release
| DestroyAllWindows.

(** How a run of [main] ends: the process exits with a status, an
    exception is not caught, or the answers of the outside are used up
    with the loop still running. *)
Inductive finish : Type :=
| Exit (status : Z)
| Uncaught (e : exn)
| Running.

(** [if not subtitle_path: ...]: the [.srt] beside the video, if there is
    one. *)
Definition default_subtitle (fs : filesystem) (video_path : string) : option string :=
  let '(base, _) := splitext video_path in
  let candidate := base ++ ".srt" in
  match fs candidate with
  | Some _ => Some candidate
  | None => None
  end.

Definition resolve_subtitle (fs : filesystem) (a : args) : option string :=
  match a_subtitle a with
  | Some s => if PyStr.truthy s then Some s else default_subtitle fs (a_video a)
  | None => default_subtitle fs (a_video a)
  end.

(** [cues = []; if subtitle_path: cues = parse_srt(subtitle_path); if cues: print(...)]:
    what is printed, and the cues or the exception. *)
Definition load_cues (fs : filesystem) (subtitle_path : option string)
  : list string * outcome (list cue) :=
  match subtitle_path with
  | Some p =>
      if PyStr.truthy p then
        match parse_srt fs p with
        | (printed, Returned (c :: cs)) =>
            ((printed ++
              [("Loaded " ++ py_str_nat (List.length (c :: cs))
                  ++ " subtitles from " ++ p ++ ".")%string])%list,
             Returned (c :: cs))
        | r => r
        end
      else ([], Returned [])
  | None => ([], Returned [])
  end.

Definition controls : string :=
  "Controls: press 'space' to pause/resume, 's' to take a screenshot, 'q' or Esc to quit.".

(** From [cap = cv2.VideoCapture(video_path)] to the end of [main]. *)
Definition play (open_video : string -> capture) (a : args) (cues : list cue)
  : list call * finish :=
  let cap := open_video (a_video a) in
  if negb (isOpened cap)
  then ([VideoCapture (a_video a);
         Did (Print ("Error: could not open video file '" ++ a_video a ++ "'."))], Exit 1)
  else
    match frame_delay (cap_fps cap) with
    | Raise e => ([VideoCapture (a_video a)], Uncaught e)
    | Ok _ =>
        let '(wd, st) :=
          main_loop cues (a_output_dir a) (cap_ticks cap) (World [] []) initial_player in
        let before := [VideoCapture (a_video a); NamedWindow window_name; Did (Print controls)] in
        match st with
        | None => ((before ++ map Did (trace wd) ++ [Release; DestroyAllWindows])%list, Exit 0)
        | Some _ => ((before ++ map Did (trace wd))%list, Running)
        end
    end.

(** [os.makedirs(path, exist_ok=True)]: [mkdirs path] is the exception
    that the operating system makes it raise, [None] when the directory is
    made or is there already.  For the empty path there is nothing to ask:
    it raises [FileNotFoundError]. *)
Definition os_makedirs (mkdirs : string -> option exn) (path : string) : option exn :=
  if PyStr.truthy path then mkdirs path else Some OSError.

(** [main()], given the parsed arguments. *)
Definition main (fs : filesystem) (mkdirs : string -> option exn)
    (open_video : string -> capture) (a : args)
  : list call * finish :=
  match fs (a_video a) with
  | None =>
      ([Did (Print ("Error: video file '" ++ a_video a ++ "' does not exist."))], Exit 1)
  | Some _ =>
      let '(printed, loaded) := load_cues fs (resolve_subtitle fs a) in
      let said := map (fun s => Did (Print s)) printed in
      match loaded with
      | Returned cues =>
          match os_makedirs mkdirs (a_output_dir a) with
          | Some e => ((said ++ [Makedirs (a_output_dir a)])%list, Uncaught e)
          | None =>
              let '(done, how) := play open_video a cues in
              ((said ++ Makedirs (a_output_dir a) :: done)%list, how)
          end
      | Raised e => (said, Uncaught e)
      | OutOfFuel => (said, Running)
      end
  end.

(** ** The loop of [mkv_player_v2.py] *)

(** From [display_frame = current_frame.copy()] to the end of the pass:
    nothing is drawn. *)
Definition show_and_react_v2 (output_dir : string) (tk : tick)
    (wd : world) (st : player) (cur : addr) : world * option player :=
  let '(wd, display_frame) := np_copy wd cur in
  let wd := emit (Imshow window_name (heap wd !!! display_frame)) wd in
  on_key output_dir tk wd st cur.

Definition loop_pass_v2 (output_dir : string) (tk : tick)
    (wd : world) (st : player) : world * option player :=
  let fetched :=
    if paused st then Some (wd, st)
    else
      match t_read tk with
      | None => None
      | Some f =>
          let '(wd, a) := alloc f (emit (CapRead (Some f)) wd) in
          Some (wd, Player (paused st) (Some a))
      end in
  match fetched with
  | None => (emit (Print "End of video.") (emit (CapRead None) wd), None)
  | Some (wd, st) =>
      match current_frame st with
      | None => (wd, None)
      | Some cur => show_and_react_v2 output_dir tk wd st cur
      end
  end.

Fixpoint main_loop_v2 (output_dir : string) (ticks : list tick)
    (wd : world) (st : player) : world * option player :=
  match ticks with
  | [] => (wd, Some st)
  | tk :: ticks' =>
      match loop_pass_v2 output_dir tk wd st with
      | (wd', Some st') => main_loop_v2 output_dir ticks' wd' st'
      | (wd', None) => (wd', None)
      end
  end.

(** ** The rest of [main] in [mkv_player_v2.py] *)

(** The arguments of [mkv_player_v2.py]: [--video] and [--output-dir]. *)
Record args_v2 : Type := ArgsV2 {
  v2_video : string;
  v2_output_dir : string
}.

(** From [cap = cv2.VideoCapture(video_path)] to the end of [main]. *)
Definition play_v2 (open_video : string -> capture) (a : args_v2)
  : list call * finish :=
  let cap := open_video (v2_video a) in
  if negb (isOpened cap)
  then ([VideoCapture (v2_video a);
         Did (Print ("Error: could not open video file '" ++ v2_video a ++ "'."))], Exit 1)
  else
    match frame_delay (cap_fps cap) with
    | Raise e => ([VideoCapture (v2_video a)], Uncaught e)
    | Ok _ =>
        let '(wd, st) :=
          main_loop_v2 (v2_output_dir a) (cap_ticks cap) (World [] []) initial_player in
        let before := [VideoCapture (v2_video a); NamedWindow window_name; Did (Print controls)] in
        match st with
        | None => ((before ++ map Did (trace wd) ++ [Release; DestroyAllWindows])%list, Exit 0)
        | Some _ => ((before ++ map Did (trace wd))%list, Running)
        end
    end.

(** [main()] of [mkv_player_v2.py], given the parsed arguments. *)
Definition main_v2 (fs : filesystem) (mkdirs : string -> option exn)
    (open_video : string -> capture) (a : args_v2)
  : list call * finish :=
  match fs (v2_video a) with
  | None =>
      ([Did (Print ("Error: video file '" ++ v2_video a ++ "' does not exist."))], Exit 1)
  | Some _ =>
      match os_makedirs mkdirs (v2_output_dir a) with
      | Some e => ([Makedirs (v2_output_dir a)], Uncaught e)
      | None =>
          let '(done, how) := play_v2 open_video a in
          (Makedirs (v2_output_dir a) :: done, how)
      end
  end.

(** ** The vocabulary of the further properties *)

(** The number of lines that hold the separator of a timing line. *)
Definition arrow_lines (content : list string) : nat :=
  List.length (filter (fun l => PyStr.contains "-->" (PyStr.strip l) = true) content).

(** The cue [c] is what line [i] of [content], read as a timing line, and
    the text below it give. *)
Definition cue_at (content : list string) (i : nat) (c : cue) : Prop :=
  exists l start_str end_str,
    content !! i = Some l /\
    map PyStr.strip (PyStr.split "-->" (PyStr.strip l)) = [start_str; end_str] /\
    parse_timecode start_str = Ok c.1.1 /\
    parse_timecode end_str = Ok c.1.2 /\
    c.2 = text_run (drop (S i) content).

(** The cues are those of timing lines taken in the order of the file,
    all of them at or after line [lo] and before line [hi]. *)
Fixpoint cues_at (content : list string) (lo hi : nat) (cues : list cue) : Prop :=
  match cues with
  | [] => True
  | c :: cues' =>
      exists i, (lo <= i < hi)%nat /\ cue_at content i c /\ cues_at content (S i) hi cues'
  end.

(** The height of a block of rendered lines: the heights and one gap of
    [line_spacing] between each two. *)
Fixpoint stacked_height (items : list (string * (Z * Z))) : Z :=
  match items with
  | [] => 0
  | [(_, (_, line_height))] => line_height
  | (_, (_, line_height)) :: items' => line_height + line_spacing + stacked_height items'
  end.

(** What a pass shows of the frame [f] that [current_frame] names: the
    frame with the caption of the cue that is active at the position of the
    pass, when there is such a cue and it has lines, and else [f] as it
    is. *)
Definition displayed (cues : list cue) (tk : tick) (f : frame) : frame :=
  match find_active_cue cues (t_pos_msec tk / 1000)%float with
  | Some (l :: ls) => captioned f (l :: ls)
  | _ => f
  end.

(** The events of drawing, and the events that a key can cause. *)
Definition is_drawing (e : event) : bool :=
  match e with
  | Rectangle _ _ _ _ | AddWeighted _ _ _ _ _ _ | PutText _ _ _ => true
  | _ => false
  end.

Definition is_key_event (e : event) : bool :=
  match e with
  | Print _ | Imwrite _ _ => true
  | _ => false
  end.

(** The passes of [ticks] whose key, cut to its low byte, is the space
    bar. *)
Definition space_presses (ticks : list tick) : nat :=
  List.length (List.filter (fun tk => (Z.land (t_key tk) 255 =? 32)%Z) ticks).

(** The file that a screenshot taken at [stamp] goes to. *)
Definition screenshot_file (output_dir stamp : string) : string :=
  path_join output_dir ("screenshot_" ++ stamp ++ ".png").

(** No cue with lines is active at the position of the pass. *)
Definition uncaptioned (cues : list cue) (tk : tick) : Prop :=
  forall l ls, find_active_cue cues (t_pos_msec tk / 1000)%float <> Some (l :: ls).

(** The calls of [main] that draw. *)
Definition draws (c : call) : bool :=
  match c with
  | Did e => is_drawing e
  | _ => false
  end.

(** A run of [main]: the video is there, no subtitle file is named and
    none lies beside the video, the capture gives one frame, and the key
    at that frame is [q]. *)
Definition demo_fs : filesystem :=
  fun p => if String.eqb p "movie.mkv" then Some (Readable ""%string) else None.

Definition demo_capture : string -> capture :=
  fun _ => Capture true 25%float [Tick (Some demo_frame) 0%float 113 ""%string].

Definition demo_mkdirs : string -> option exn := fun _ => None.

Definition demo_args : args := Args "movie.mkv" None "shots".

(** * Lemmas *)

(** ** The order of binary64 values *)

Ltac sf_cases :=
  repeat match goal with
  | |- context [Pos.compare_cont Eq ?a ?b] =>
      change (Pos.compare_cont Eq a b) with (Pos.compare a b)
  | H : context [Pos.compare_cont Eq ?a ?b] |- _ =>
      change (Pos.compare_cont Eq a b) with (Pos.compare a b) in H
  end;
  repeat match goal with
  | H : context [Z.compare ?a ?b] |- _ =>
      destruct (Z.compare_spec a b); simpl in H; try discriminate
  | H : context [Pos.compare ?a ?b] |- _ =>
      destruct (Pos.compare_spec a b); simpl in H; try discriminate
  end;
  repeat match goal with
  | |- context [Z.compare ?a ?b] => destruct (Z.compare_spec a b); simpl
  | |- context [Pos.compare ?a ?b] => destruct (Pos.compare_spec a b); simpl
  end;
  subst; try reflexivity; try discriminate; try lia.

Lemma SFleb_trans x y z : SFleb x y = true -> SFleb y z = true -> SFleb x z = true.
Proof.
  unfold SFleb.
  destruct x as [[]|[]| |[] mx ex], y as [[]|[]| |[] my ey], z as [[]|[]| |[] mz ez];
    simpl; try (intros; (reflexivity || discriminate)); intros H1 H2; sf_cases.
Qed.

Lemma SFltb_not_leb x y : SFltb y x = true -> SFleb x y = false.
Proof.
  unfold SFleb, SFltb.
  destruct x as [[]|[]| |[] mx ex], y as [[]|[]| |[] my ey];
    simpl; try (intros; (reflexivity || discriminate)); intros H1; sf_cases.
Qed.

Lemma SFeqb_start t s e :
  SFeqb t s = true -> SFleb s e = true -> SFleb s t = true /\ SFleb t e = true.
Proof.
  unfold SFleb, SFeqb.
  destruct t as [[]|[]| |[] mx ex], s as [[]|[]| |[] my ey], e as [[]|[]| |[] mz ez];
    simpl; try (intros; (split; reflexivity) || discriminate);
    intros H1 H2; split; sf_cases.
Qed.

Lemma SFeqb_end t s e :
  SFeqb t e = true -> SFleb s e = true -> SFleb s t = true /\ SFleb t e = true.
Proof.
  unfold SFleb, SFeqb.
  destruct t as [[]|[]| |[] mx ex], s as [[]|[]| |[] my ey], e as [[]|[]| |[] mz ez];
    simpl; try (intros; (split; reflexivity) || discriminate);
    intros H1 H2; split; sf_cases.
Qed.

Lemma float_leb_trans (x y z : float) :
  (x <=? y)%float = true -> (y <=? z)%float = true -> (x <=? z)%float = true.
Proof. rewrite !FloatAxioms.leb_spec. apply SFleb_trans. Qed.

Lemma float_ltb_not_leb (x y : float) :
  (y <? x)%float = true -> (x <=? y)%float = false.
Proof. rewrite FloatAxioms.ltb_spec, FloatAxioms.leb_spec. apply SFltb_not_leb. Qed.

Lemma within_endpoints (s e t : float) :
  (s <=? e)%float = true ->
  (t =? s)%float = true \/ (t =? e)%float = true ->
  within s e t = true.
Proof.
  unfold within. rewrite !FloatAxioms.leb_spec, !FloatAxioms.eqb_spec. intros Hse [H | H].
  - destruct (SFeqb_start _ _ _ H Hse) as [H1 H2]. rewrite H1, H2. reflexivity.
  - destruct (SFeqb_end _ _ _ H Hse) as [H1 H2]. rewrite H1, H2. reflexivity.
Qed.

Lemma within_degenerate (s e t : float) :
  (e <? s)%float = true -> within s e t = false.
Proof.
  intros H. unfold within.
  destruct (s <=? t)%float eqn:H1; [|reflexivity].
  destruct (t <=? e)%float eqn:H2; [|reflexivity].
  pose proof (float_leb_trans _ _ _ H1 H2) as H3.
  rewrite (float_ltb_not_leb _ _ H) in H3. discriminate.
Qed.

(** ** [find_active_cue] is a first-match scan *)

Lemma find_active_cue_cons c cues t :
  find_active_cue (c :: cues) t =
  if active c t then Some c.2 else find_active_cue cues t.
Proof. destruct c as [[s e] ls]. reflexivity. Qed.

Lemma find_active_cue_skip pre cues t :
  Forall (fun c => active c t = false) pre ->
  find_active_cue (pre ++ cues) t = find_active_cue cues t.
Proof.
  induction 1 as [|c pre Hc _ IH]; [reflexivity|].
  rewrite <- app_comm_cons, find_active_cue_cons, Hc. exact IH.
Qed.

Lemma find_active_cue_some cues t lines :
  find_active_cue cues t = Some lines <->
  exists pre c post,
    cues = (pre ++ c :: post)%list /\
    Forall (fun c' => active c' t = false) pre /\
    active c t = true /\ c.2 = lines.
Proof.
  split.
  - induction cues as [|c cues IH]; [discriminate|].
    rewrite find_active_cue_cons. destruct (active c t) eqn:Hc.
    + intros [= <-]. exists [], c, cues. repeat split; [constructor | exact Hc].
    + intros H. destruct (IH H) as (pre & c' & post & -> & Hpre & Hc' & Hl).
      exists (c :: pre), c', post. repeat split; [constructor | |]; assumption.
  - intros (pre & c & post & -> & Hpre & Hc & <-).
    rewrite find_active_cue_skip by exact Hpre.
    rewrite find_active_cue_cons, Hc. reflexivity.
Qed.

Lemma find_active_cue_none cues t :
  find_active_cue cues t = None <-> Forall (fun c => active c t = false) cues.
Proof.
  induction cues as [|c cues IH].
  - split; [constructor | reflexivity].
  - rewrite find_active_cue_cons. destruct (active c t) eqn:Hc; split.
    + discriminate.
    + intros H. apply Forall_cons_1 in H as [H _]. congruence.
    + intros H. constructor; [exact Hc | apply IH, H].
    + intros H. apply Forall_cons_1 in H as [_ H]. apply IH, H.
Qed.

Lemma find_active_cue_drop pre c post t :
  active c t = false ->
  find_active_cue (pre ++ c :: post) t = find_active_cue (pre ++ post) t.
Proof.
  intros Hc. induction pre as [|c' pre IH]; simpl app.
  - rewrite find_active_cue_cons, Hc. reflexivity.
  - rewrite !find_active_cue_cons, IH. reflexivity.
Qed.

Lemma SFleb_refl_l x y : SFleb x y = true -> SFleb x x = true.
Proof.
  unfold SFleb.
  destruct x as [[]|[]| |[] mx ex], y as [[]|[]| |[] my ey];
    simpl; try (intros; (reflexivity || discriminate));
    intros _; rewrite Z.compare_refl;
    change (Pos.compare_cont Eq mx mx) with (Pos.compare mx mx);
    rewrite Pos.compare_refl; reflexivity.
Qed.

Lemma SFleb_refl_r x y : SFleb x y = true -> SFleb y y = true.
Proof.
  unfold SFleb.
  destruct x as [[]|[]| |[] mx ex], y as [[]|[]| |[] my ey];
    simpl; try (intros; (reflexivity || discriminate));
    intros _; rewrite Z.compare_refl;
    change (Pos.compare_cont Eq my my) with (Pos.compare my my);
    rewrite Pos.compare_refl; reflexivity.
Qed.

Lemma within_start (s e : float) : (s <=? e)%float = true -> within s e s = true.
Proof.
  intros H. unfold within. rewrite H, andb_true_r.
  rewrite FloatAxioms.leb_spec in *. eapply SFleb_refl_l, H.
Qed.

Lemma within_end (s e : float) : (s <=? e)%float = true -> within s e e = true.
Proof.
  intros H. unfold within. rewrite H. simpl.
  rewrite FloatAxioms.leb_spec in *. eapply SFleb_refl_r, H.
Qed.

(** ** The scan of [parse_srt] always comes to an end *)

Lemma collect_lines_idx rest idx lines :
  (idx <= (collect_lines rest idx lines).1)%nat.
Proof.
  revert idx lines. induction rest as [|l rest IH]; intros idx lines; simpl; [lia|].
  destruct (PyStr.truthy (PyStr.strip l)); simpl; [|lia].
  specialize (IH (S idx) (lines ++ [PyStr.rstrip_char "013" l])%list). lia.
Qed.

Lemma skip_blank_idx rest idx : (idx <= skip_blank rest idx)%nat.
Proof.
  revert idx. induction rest as [|l rest IH]; intros idx; simpl; [lia|].
  destruct (PyStr.truthy (PyStr.strip l)); [lia|].
  specialize (IH (S idx)). lia.
Qed.

Lemma srt_pass_advances content idx cues idx' cues' :
  srt_pass content idx cues = Again idx' cues' -> (idx < idx')%nat.
Proof.
  unfold srt_pass.
  destruct (negb _); [intros [= <- _]; lia|].
  set (i := if PyStr.isdigit _ then S idx else idx).
  assert (idx <= i)%nat as Hi by (subst i; destruct (PyStr.isdigit _); lia).
  clearbody i.
  destruct (_ <=? _)%nat; [discriminate|].
  destruct (negb _); [intros [= <- _]; lia|].
  destruct (map _ _) as [|start_str [|end_str [|]]]; try discriminate.
  destruct (bind _ _) as [[start_time end_time]|[]]; try discriminate.
  - destruct (collect_lines _ _ _) as [j lines] eqn:Hc.
    intros [= <- _].
    pose proof (collect_lines_idx (drop (S i) content) (S i) []) as H1.
    rewrite Hc in H1. simpl in H1.
    pose proof (skip_blank_idx (drop j content) j). lia.
  - intros [= <- _]. lia.
Qed.

Lemma srt_loop_fuel fuel content idx cues :
  (List.length content - idx <= fuel)%nat ->
  srt_loop fuel content idx cues <> OutOfFuel.
Proof.
  revert idx cues. induction fuel as [|fuel IH]; intros idx cues Hf; simpl.
  - destruct (Nat.leb_spec (List.length content) idx); [discriminate | lia].
  - destruct (Nat.leb_spec (List.length content) idx); [discriminate|].
    destruct (srt_pass content idx cues) as [idx' cues'| |] eqn:Hp; try discriminate.
    apply IH. apply srt_pass_advances in Hp. lia.
Qed.

Lemma parse_lines_total content : parse_lines content <> OutOfFuel.
Proof. apply srt_loop_fuel. lia. Qed.

(** ** Where [parse_srt] can raise *)

Lemma parse_timecode_raises time_str e :
  parse_timecode time_str = Raise e -> e = ValueError.
Proof.
  unfold parse_timecode. destruct (parse_timecode_try time_str); congruence.
Qed.

Lemma split_aux_nonempty sep skip cur s : (1 <= List.length (PyStr.split_aux sep skip cur s))%nat.
Proof.
  revert skip cur. induction s as [|c s IH]; intros skip cur;
    cbn [PyStr.split_aux]; [simpl; lia|].
  destruct skip as [|k]; [|apply IH].
  destruct (String.prefix sep (String c s)); [simpl List.length; lia | apply IH].
Qed.

Lemma split_aux_contains sep cur s :
  PyStr.truthy sep = true ->
  PyStr.contains sep s = true ->
  (2 <= List.length (PyStr.split_aux sep 0 cur s))%nat.
Proof.
  intros Hsep. revert cur. induction s as [|c s IH]; intros cur.
  - destruct sep; discriminate.
  - cbn [PyStr.contains PyStr.split_aux].
    destruct (String.prefix sep (String c s)).
    + intros _. pose proof (split_aux_nonempty sep (String.length sep - 1) "" s).
      simpl List.length. lia.
    + simpl. apply IH.
Qed.

Lemma item_elem content idx :
  (idx < List.length content)%nat -> item content idx ∈ content.
Proof.
  intros H. unfold item.
  destruct (lookup_lt_is_Some_2 content idx H) as [l Hl].
  rewrite Hl. simpl. eapply list_elem_of_lookup_2, Hl.
Qed.

Lemma srt_pass_no_throw content idx cues e :
  Forall one_arrow content ->
  (idx < List.length content)%nat ->
  srt_pass content idx cues <> Throw e.
Proof.
  intros Hall Hidx. unfold srt_pass.
  destruct (negb _); [discriminate|].
  set (i := if PyStr.isdigit _ then S idx else idx). clearbody i.
  destruct (Nat.leb_spec (List.length content) i) as [|Hi]; [discriminate|].
  destruct (negb _) eqn:Hc; [discriminate|].
  apply negb_false_iff in Hc.
  apply (split_aux_contains _ "") in Hc; [|reflexivity].
  pose proof (proj1 (Forall_forall _ _) Hall _ (item_elem content i Hi)) as H1.
  unfold one_arrow in H1. unfold PyStr.split in *.
  destruct (PyStr.split_aux "-->" 0 "" (PyStr.strip (item content i)))
    as [|start_str [|end_str [|]]]; simpl in Hc, H1; try lia.
  cbn [map].
  destruct (parse_timecode (PyStr.strip start_str)) as [s|e1] eqn:Hs; simpl.
  - destruct (parse_timecode (PyStr.strip end_str)) as [t|e2] eqn:Ht; simpl.
    + destruct (collect_lines _ _ _). simpl. discriminate.
    + apply parse_timecode_raises in Ht as ->. discriminate.
  - apply parse_timecode_raises in Hs as ->. discriminate.
Qed.

Lemma srt_loop_returns fuel content idx cues :
  Forall one_arrow content ->
  (List.length content - idx <= fuel)%nat ->
  exists cues', srt_loop fuel content idx cues = Returned cues'.
Proof.
  intros Hall. revert idx cues. induction fuel as [|fuel IH]; intros idx cues Hf; simpl.
  - destruct (Nat.leb_spec (List.length content) idx); [eauto | lia].
  - destruct (Nat.leb_spec (List.length content) idx) as [|Hidx]; [eauto|].
    destruct (srt_pass content idx cues) as [idx' cues'|cues'|e] eqn:Hp.
    + apply IH. apply srt_pass_advances in Hp. lia.
    + eauto.
    + exfalso. exact (srt_pass_no_throw content idx cues e Hall Hidx Hp).
Qed.

Lemma parse_lines_returns content :
  Forall one_arrow content -> exists cues, parse_lines content = Returned cues.
Proof. intros H. apply srt_loop_returns; [exact H | lia]. Qed.

(** ** Time codes whose fields are integer literals *)












(** Splitting at a one-character separator. *)
Lemma append_assoc (a b c : string) : ((a ++ b) ++ c = a ++ (b ++ c))%string.
Proof. induction a as [|x a IH]; simpl; [reflexivity | rewrite IH; reflexivity]. Qed.

Lemma append_empty_r (a : string) : (a ++ "" = a)%string.
Proof. induction a as [|x a IH]; simpl; [reflexivity | rewrite IH; reflexivity]. Qed.


Lemma split_char_last ch cur s :
  PyStr.all_chars (fun c => negb (Ascii.eqb ch c)) s = true ->
  PyStr.split_aux (String ch "") 0 cur s = [cur ++ s].
Proof.
  revert cur. induction s as [|c s IH]; intros cur.
  - intros _. simpl. rewrite append_empty_r. reflexivity.
  - intros [Hc Hs]%andb_true_iff.
    cbn [PyStr.split_aux String.prefix].
    destruct (ascii_dec ch c) as [->|_].
    + rewrite Ascii.eqb_refl in Hc. discriminate.
    + rewrite (IH _ Hs), append_assoc. reflexivity.
Qed.




(** ** The passes of the parser *)

Lemma srt_pass_throws content idx cues e :
  srt_pass content idx cues = Throw e -> e = ValueError.
Proof.
  unfold srt_pass.
  destruct (negb _); [discriminate|].
  destruct (_ <=? _)%nat; [discriminate|].
  destruct (negb _); [discriminate|].
  destruct (map _ _) as [|start_str [|end_str [|]]]; try (intros [= <-]; reflexivity).
  destruct (parse_timecode start_str) as [s|e1] eqn:Hs; simpl.
  - destruct (parse_timecode end_str) as [t|e2] eqn:Ht; simpl.
    + destruct (collect_lines _ _ _). discriminate.
    + apply parse_timecode_raises in Ht as ->. discriminate.
  - apply parse_timecode_raises in Hs as ->. discriminate.
Qed.

Lemma srt_loop_raises fuel content idx cues e :
  srt_loop fuel content idx cues = Raised e -> e = ValueError.
Proof.
  revert idx cues. induction fuel as [|fuel IH]; intros idx cues; simpl;
    destruct (_ <=? _)%nat; try discriminate.
  destruct (srt_pass content idx cues) as [idx' cues'|cues'|e'] eqn:Hp; try discriminate.
  - apply IH.
  - intros [= <-]. eapply srt_pass_throws, Hp.
Qed.

Lemma collect_lines_run rest idx acc :
  collect_lines rest idx acc =
  ((idx + List.length (text_run rest))%nat, (acc ++ text_run rest)%list).
Proof.
  revert idx acc. induction rest as [|l rest IH]; intros idx acc; cbn [collect_lines text_run].
  - rewrite app_nil_r, Nat.add_0_r. reflexivity.
  - destruct (PyStr.truthy (PyStr.strip l)).
    + rewrite IH, <- app_assoc. cbn [List.length app]. f_equal. lia.
    + rewrite app_nil_r, Nat.add_0_r. reflexivity.
Qed.

Lemma split_aux_without sep cur s :
  PyStr.contains sep s = false ->
  PyStr.split_aux sep 0 cur s = [cur ++ s].
Proof.
  revert cur. induction s as [|c s IH]; intros cur.
  - intros _. cbn [PyStr.split_aux]. rewrite append_empty_r. reflexivity.
  - cbn [PyStr.contains PyStr.split_aux].
    destruct (String.prefix sep (String c s)); [discriminate|].
    cbn [orb]. intros H. rewrite (IH _ H), append_assoc. reflexivity.
Qed.

Lemma cue_at_arrow content i c :
  cue_at content i c ->
  exists l, content !! i = Some l /\ PyStr.contains "-->" (PyStr.strip l) = true.
Proof.
  intros (l & a & b & Hl & Hsplit & _). exists l. split; [exact Hl|].
  destruct (PyStr.contains "-->" (PyStr.strip l)) eqn:Hc; [reflexivity|].
  unfold PyStr.split in Hsplit.
  rewrite (split_aux_without _ _ _ Hc) in Hsplit. discriminate.
Qed.

(** What a pass that goes on has done: nothing but move on, or read one
    cue off a timing line that it has passed. *)
Lemma srt_pass_again content idx cues idx' cues' :
  srt_pass content idx cues = Again idx' cues' ->
  (idx < idx')%nat /\
  (cues' = cues \/
   exists i c, (idx <= i < idx')%nat /\ cue_at content i c /\ cues' = (cues ++ [c])%list).
Proof.
  intros Hp. split; [eapply srt_pass_advances, Hp|]. revert Hp.
  unfold srt_pass.
  destruct (negb _); [intros [= _ <-]; left; reflexivity|].
  set (i := if PyStr.isdigit _ then S idx else idx).
  assert (idx <= i)%nat as Hi by (subst i; destruct (PyStr.isdigit _); lia).
  clearbody i.
  destruct (Nat.leb_spec (List.length content) i) as [|Hlen]; [discriminate|].
  destruct (negb _); [intros [= _ <-]; left; reflexivity|].
  destruct (map _ _) as [|start_str [|end_str [|]]] eqn:Hsplit; try discriminate.
  destruct (parse_timecode start_str) as [s|e1] eqn:Hs; cbn [bind].
  2:{ apply parse_timecode_raises in Hs as ->. intros [= _ <-]. left. reflexivity. }
  destruct (parse_timecode end_str) as [t|e2] eqn:Ht; cbn [bind].
  2:{ apply parse_timecode_raises in Ht as ->. intros [= _ <-]. left. reflexivity. }
  rewrite collect_lines_run. cbn [app].
  intros [= <- <-]. right.
  exists i, (s, t, text_run (drop (S i) content)). split; [|split; [|reflexivity]].
  - match goal with |- context [skip_blank ?r ?j] =>
      pose proof (skip_blank_idx r j)
    end. lia.
  - destruct (lookup_lt_is_Some_2 content i Hlen) as [l Hl].
    exists l, start_str, end_str. unfold item in Hsplit. rewrite Hl in Hsplit.
    repeat split; assumption.
Qed.

Lemma srt_pass_break content idx cues cues' :
  srt_pass content idx cues = Break cues' -> cues' = cues.
Proof.
  unfold srt_pass.
  destruct (negb _); [discriminate|].
  destruct (_ <=? _)%nat; [intros [= <-]; reflexivity|].
  destruct (negb _); [discriminate|].
  destruct (map _ _) as [|start_str [|end_str [|]]]; try discriminate.
  destruct (bind _ _) as [[s t]|[]]; try discriminate.
  destruct (collect_lines _ _ _). discriminate.
Qed.

Lemma cues_at_snoc content lo hi hi' cues i c :
  cues_at content lo hi cues ->
  (lo <= i)%nat -> (hi <= i < hi')%nat -> cue_at content i c ->
  cues_at content lo hi' (cues ++ [c]).
Proof.
  revert lo. induction cues as [|c0 cues IH]; intros lo H Hlo Hi Hc; cbn [app cues_at].
  - exists i. repeat split; (lia || assumption).
  - destruct H as (i0 & Hi0 & Hc0 & Hrest). exists i0.
    split; [lia|]. split; [exact Hc0|]. apply IH; (lia || assumption).
Qed.

Lemma cues_at_upto content lo hi hi' cues :
  cues_at content lo hi cues -> (hi <= hi')%nat -> cues_at content lo hi' cues.
Proof.
  revert lo. induction cues as [|c cues IH]; intros lo H Hhi; [exact I|].
  destruct H as (i & Hi & Hc & Hrest). exists i.
  split; [lia|]. split; [exact Hc | apply IH; assumption].
Qed.

Lemma cues_at_clip content lo hi cues :
  cues_at content lo hi cues -> cues_at content lo (List.length content) cues.
Proof.
  revert lo. induction cues as [|c cues IH]; intros lo H; [exact I|].
  destruct H as (i & Hi & Hc & Hrest). exists i.
  split; [|split; [exact Hc | apply IH, Hrest]].
  destruct Hc as (l & _ & _ & Hl & _). apply lookup_lt_Some in Hl. lia.
Qed.

Lemma srt_loop_cues_at fuel content idx cues result :
  cues_at content 0 idx cues ->
  srt_loop fuel content idx cues = Returned result ->
  cues_at content 0 (List.length content) result.
Proof.
  revert idx cues. induction fuel as [|fuel IH]; intros idx cues Hinv; simpl;
    destruct (_ <=? _)%nat;
    try (intros [= <-]; eapply cues_at_clip, Hinv); try discriminate.
  destruct (srt_pass content idx cues) as [idx' cues'|cues'|e] eqn:Hp; try discriminate.
  - apply IH. apply srt_pass_again in Hp as [Hlt [->|(i & c & Hi & Hc & ->)]].
    + eapply cues_at_upto; [exact Hinv | lia].
    + apply (cues_at_snoc content 0 idx idx' cues i c Hinv); [lia | lia | exact Hc].
  - intros [= <-]. apply srt_pass_break in Hp as ->. eapply cues_at_clip, Hinv.
Qed.

Lemma arrow_lines_app a b : arrow_lines (a ++ b) = (arrow_lines a + arrow_lines b)%nat.
Proof. unfold arrow_lines. rewrite filter_app, length_app. reflexivity. Qed.

Lemma arrow_lines_hit l rest :
  PyStr.contains "-->" (PyStr.strip l) = true ->
  arrow_lines (l :: rest) = S (arrow_lines rest).
Proof. intros Hc. unfold arrow_lines. rewrite filter_cons_True by exact Hc. reflexivity. Qed.

Lemma arrow_lines_from content lo i l :
  (lo <= i)%nat -> content !! i = Some l ->
  PyStr.contains "-->" (PyStr.strip l) = true ->
  (S (arrow_lines (drop (S i) content)) <= arrow_lines (drop lo content))%nat.
Proof.
  intros Hlo Hl Hc.
  rewrite <- (take_drop (i - lo) (drop lo content)), arrow_lines_app, drop_drop.
  replace (lo + (i - lo))%nat with i by lia.
  rewrite (drop_S _ _ _ Hl), (arrow_lines_hit _ _ Hc). lia.
Qed.

Lemma cues_at_count content lo hi cues :
  cues_at content lo hi cues ->
  (List.length cues <= arrow_lines (drop lo content))%nat.
Proof.
  revert lo. induction cues as [|c cues IH]; intros lo H; cbn [List.length]; [lia|].
  destruct H as (i & Hi & Hc & Hrest).
  destruct (cue_at_arrow _ _ _ Hc) as (l & Hl & Harrow).
  pose proof (IH _ Hrest). pose proof (arrow_lines_from content lo i l (proj1 Hi) Hl Harrow).
  lia.
Qed.

(** ** The timing lines that the parser reads *)

Lemma contains_truthy sub s :
  PyStr.truthy sub = true -> PyStr.contains sub s = true -> PyStr.truthy s = true.
Proof.
  intros Hsub. destruct s; [|reflexivity].
  destruct sub; [discriminate|]. cbn. discriminate.
Qed.

Lemma arrow_not_isdigit s :
  PyStr.contains "-->" s = true -> PyStr.isdigit s = false.
Proof.
  intros H. unfold PyStr.isdigit.
  enough (PyStr.all_chars PyStr.isdigit_char s = false) as -> by apply andb_false_r.
  induction s as [|c s IH]; [discriminate|].
  cbn [PyStr.contains String.prefix] in H. cbn [PyStr.all_chars].
  destruct (ascii_dec "-" c) as [<-|_]; [reflexivity|].
  cbn [orb] in H. rewrite (IH H). apply andb_false_r.
Qed.

Lemma text_run_length rest n b :
  rest !! n = Some b -> PyStr.truthy (PyStr.strip b) = false ->
  (List.length (text_run rest) <= n)%nat.
Proof.
  revert n. induction rest as [|l rest IH]; intros n Hn Hb; [discriminate|].
  cbn [text_run]. destruct n as [|n].
  - injection Hn as ->. rewrite Hb. cbn. lia.
  - destruct (PyStr.truthy (PyStr.strip l)); cbn [List.length]; [|lia].
    specialize (IH n Hn Hb). lia.
Qed.

Lemma skip_blank_upto rest idx n l :
  rest !! n = Some l -> PyStr.truthy (PyStr.strip l) = true ->
  (skip_blank rest idx <= idx + n)%nat.
Proof.
  revert idx n. induction rest as [|l0 rest IH]; intros idx n Hn Hl; [discriminate|].
  cbn [skip_blank]. destruct n as [|n].
  - injection Hn as ->. rewrite Hl. lia.
  - destruct (PyStr.truthy (PyStr.strip l0)); [lia|].
    specialize (IH (S idx) n Hn Hl). lia.
Qed.

(** A pass that starts before a block does not go beyond the line that
    begins the block. *)
Lemma srt_pass_within content idx cues p lp :
  (idx < p)%nat -> block_start content p ->
  content !! p = Some lp -> PyStr.truthy (PyStr.strip lp) = true ->
  match srt_pass content idx cues with
  | Again idx' _ => (idx' <= p)%nat
  | Break _ => False
  | Throw _ => True
  end.
Proof.
  intros Hidx Hstart Hp Hlp.
  destruct p as [|q]; [lia|]. destruct Hstart as (b & Hq & Hb).
  pose proof (lookup_lt_Some _ _ _ Hp) as Hlen.
  assert (forall j, PyStr.truthy (PyStr.strip (item content j)) = true ->
            (j <= q)%nat -> (j < q)%nat) as Hnot.
  { intros j Hj Hle. destruct (decide (j = q)) as [->|]; [|lia].
    assert (item content q = b) as Hitem by (unfold item; rewrite Hq; reflexivity).
    rewrite Hitem in Hj. congruence. }
  unfold srt_pass.
  destruct (PyStr.truthy (PyStr.strip (item content idx))) eqn:Hline; cbn [negb]; [|lia].
  assert (idx < q)%nat as Hlt by (apply Hnot; [exact Hline | lia]).
  set (i := if PyStr.isdigit _ then S idx else idx).
  assert (i <= q)%nat as Hi by (subst i; destruct (PyStr.isdigit _); lia).
  clearbody i.
  destruct (Nat.leb_spec (List.length content) i) as [|_]; [lia|].
  destruct (PyStr.contains "-->" (PyStr.strip (item content i))) eqn:Harrow;
    cbn [negb]; [|lia].
  assert (i < q)%nat as Hiq.
  { apply Hnot; [|exact Hi]. eapply contains_truthy, Harrow. reflexivity. }
  destruct (map _ _) as [|start_str [|end_str [|]]]; try exact I.
  destruct (bind _ _) as [[start_time end_time]|[]]; try exact I; try lia.
  rewrite collect_lines_run. cbn [app].
  assert (List.length (text_run (drop (S i) content)) <= q - S i)%nat as Hrun.
  { apply (text_run_length _ _ b); [|exact Hb].
    rewrite lookup_drop. replace (S i + (q - S i))%nat with q by lia. exact Hq. }
  match goal with |- (skip_blank ?rest ?k <= _)%nat =>
    pose proof (skip_blank_upto rest k (S q - k) lp) as Hskip
  end.
  rewrite lookup_drop in Hskip.
  replace (S i + List.length (text_run (drop (S i) content)) +
           (S q - (S i + List.length (text_run (drop (S i) content)))))%nat
    with (S q) in Hskip by lia.
  specialize (Hskip Hp Hlp). lia.
Qed.

(** So the loop, when it returns, has gone through the line that begins
    the block. *)
Lemma srt_loop_reaches fuel content idx cues result p lp :
  srt_loop fuel content idx cues = Returned result ->
  (idx <= p)%nat -> block_start content p ->
  content !! p = Some lp -> PyStr.truthy (PyStr.strip lp) = true ->
  exists fuel' cues', srt_loop fuel' content p cues' = Returned result.
Proof.
  revert idx cues. induction fuel as [|fuel IH]; intros idx cues Hret Hidx Hstart Hp Hlp.
  - destruct (decide (idx = p)) as [->|Hne]; [eauto|].
    pose proof (lookup_lt_Some _ _ _ Hp) as Hlen. cbn [srt_loop] in Hret.
    destruct (Nat.leb_spec (List.length content) idx); [lia | discriminate].
  - destruct (decide (idx = p)) as [->|Hne]; [eauto|].
    pose proof (lookup_lt_Some _ _ _ Hp) as Hlen. cbn [srt_loop] in Hret.
    destruct (Nat.leb_spec (List.length content) idx); [lia|].
    pose proof (srt_pass_within content idx cues p lp ltac:(lia) Hstart Hp Hlp) as Hin.
    destruct (srt_pass content idx cues) as [idx' cues'|cues'|e]; try discriminate.
    + eapply IH; eauto.
    + destruct Hin.
Qed.

Lemma srt_loop_prefix fuel content idx cues result :
  srt_loop fuel content idx cues = Returned result ->
  exists more, result = (cues ++ more)%list.
Proof.
  revert idx cues. induction fuel as [|fuel IH]; intros idx cues; cbn [srt_loop];
    destruct (_ <=? _)%nat;
    try (intros [= <-]; exists []; rewrite app_nil_r; reflexivity); try discriminate.
  destruct (srt_pass content idx cues) as [idx' cues'|cues'|e] eqn:Hp; try discriminate.
  - intros H. apply IH in H as [more ->].
    apply srt_pass_again in Hp as [_ [->|(i & c & _ & _ & ->)]]; [eauto|].
    rewrite <- app_assoc. eauto.
  - intros [= <-]. apply srt_pass_break in Hp as ->.
    exists []. rewrite app_nil_r. reflexivity.
Qed.

(** What a pass makes of a timing line whose two time codes are read: a
    cue with the two times as they are, whether the pass starts at the
    line or at an index line before it. *)
Lemma srt_pass_emits content cues i l start_str end_str s e :
  content !! i = Some l ->
  map PyStr.strip (PyStr.split "-->" (PyStr.strip l)) = [start_str; end_str] ->
  parse_timecode start_str = Ok s -> parse_timecode end_str = Ok e ->
  (exists idx',
     srt_pass content i cues =
       Again idx' (cues ++ [(s, e, text_run (drop (S i) content))])%list) /\
  (forall p d, i = S p -> content !! p = Some d ->
     PyStr.isdigit (PyStr.strip d) = true ->
     exists idx',
       srt_pass content p cues =
         Again idx' (cues ++ [(s, e, text_run (drop (S i) content))])%list).
Proof.
  intros Hl Hsplit Hs He.
  pose proof (lookup_lt_Some _ _ _ Hl) as Hlen.
  assert (PyStr.contains "-->" (PyStr.strip l) = true) as Harrow.
  { destruct (PyStr.contains "-->" (PyStr.strip l)) eqn:Hc; [reflexivity|].
    unfold PyStr.split in Hsplit.
    rewrite (split_aux_without _ _ _ Hc) in Hsplit. discriminate. }
  assert (item content i = l) as Hitem by (unfold item; rewrite Hl; reflexivity).
  assert (forall k,
            (if (List.length content <=? i)%nat then Break cues
             else
               let timing := PyStr.strip (item content i) in
               let idx := S i in
               if negb (PyStr.contains "-->" timing) then Again idx cues
               else
                 match map PyStr.strip (PyStr.split "-->" timing) with
                 | [start_str; end_str] =>
                     match bind (parse_timecode start_str) (fun start_time =>
                           bind (parse_timecode end_str) (fun end_time =>
                           Ok (start_time, end_time))) with
                     | Raise ValueError => Again idx cues
                     | Raise e => Throw e
                     | Ok (start_time, end_time) =>
                         let '(idx, lines) := collect_lines (drop idx content) idx [] in
                         let cues := (cues ++ [(start_time, end_time, lines)])%list in
                         Again (skip_blank (drop idx content) idx) cues
                     end
                 | _ => Throw ValueError
                 end) = k ->
            exists idx',
              k = Again idx' (cues ++ [(s, e, text_run (drop (S i) content))])%list)
    as Htail.
  { intros k <-.
    destruct (Nat.leb_spec (List.length content) i) as [|_]; [lia|].
    cbv zeta. rewrite Hitem, Harrow, Hsplit, Hs, He. cbn [negb bind].
    rewrite collect_lines_run. cbn [app]. eauto. }
  split.
  - unfold srt_pass.
    replace (PyStr.truthy (PyStr.strip (item content i))) with true
      by (rewrite Hitem; symmetry; apply (contains_truthy "-->" _ eq_refl Harrow)).
    replace (PyStr.isdigit (PyStr.strip (item content i))) with false
      by (rewrite Hitem; symmetry; apply arrow_not_isdigit, Harrow).
    cbn [negb]. eapply Htail. reflexivity.
  - intros p d -> Hd Hdigit. unfold srt_pass.
    assert (item content p = d) as -> by (unfold item; rewrite Hd; reflexivity).
    rewrite Hdigit.
    assert (PyStr.truthy (PyStr.strip d) = true) as ->
      by (unfold PyStr.isdigit in Hdigit; apply andb_true_iff in Hdigit as [H _]; exact H).
    cbn [negb]. eapply Htail. reflexivity.
Qed.

(** A timing line at the place of a block where the parser looks for it,
    with two time codes that are read, gives a cue with the two times as
    they are, in whatever order they stand. *)
Lemma parse_lines_emits content result i l start_str end_str s e :
  parse_lines content = Returned result ->
  timing_place content i ->
  content !! i = Some l ->
  map PyStr.strip (PyStr.split "-->" (PyStr.strip l)) = [start_str; end_str] ->
  parse_timecode start_str = Ok s -> parse_timecode end_str = Ok e ->
  In (s, e, text_run (drop (S i) content)) result.
Proof.
  intros Hret Hplace Hl Hsplit Hs He.
  assert (PyStr.truthy (PyStr.strip l) = true) as Hline.
  { apply (contains_truthy "-->"); [reflexivity|].
    destruct (PyStr.contains "-->" (PyStr.strip l)) eqn:Hc; [reflexivity|].
    unfold PyStr.split in Hsplit.
    rewrite (split_aux_without _ _ _ Hc) in Hsplit. discriminate. }
  assert (forall p lp,
            block_start content p -> content !! p = Some lp ->
            PyStr.truthy (PyStr.strip lp) = true ->
            (forall cues', exists idx',
               srt_pass content p cues' =
                 Again idx' (cues' ++ [(s, e, text_run (drop (S i) content))])%list) ->
            In (s, e, text_run (drop (S i) content)) result) as Hblock.
  { intros p lp Hstart Hp Hlp Hpass.
    destruct (srt_loop_reaches _ _ _ _ _ p lp Hret ltac:(lia) Hstart Hp Hlp)
      as (fuel' & cues' & Hat).
    pose proof (lookup_lt_Some _ _ _ Hp) as Hlen.
    destruct fuel' as [|fuel']; cbn [srt_loop] in Hat;
      destruct (Nat.leb_spec (List.length content) p); try lia; try discriminate.
    destruct (Hpass cues') as [idx' Hemit]. rewrite Hemit in Hat.
    apply srt_loop_prefix in Hat as [more ->].
    apply in_or_app. left. apply in_or_app. right. left. reflexivity. }
  destruct Hplace as [Hstart|Hindex].
  - apply (Hblock i l Hstart Hl Hline). intros cues'.
    exact (proj1 (srt_pass_emits content cues' i l start_str end_str s e Hl Hsplit Hs He)).
  - destruct i as [|p]; [destruct Hindex|]. destruct Hindex as (Hstart & d & Hd & Hdigit).
    apply (Hblock p d Hstart Hd).
    + unfold PyStr.isdigit in Hdigit. apply andb_true_iff in Hdigit as [H _]. exact H.
    + intros cues'.
      exact (proj2 (srt_pass_emits content cues' (S p) l start_str end_str s e
                      Hl Hsplit Hs He) p d eq_refl Hd Hdigit).
Qed.

Lemma parse_srt_emits fs path text i l start_str end_str s e :
  fs path = Some (Readable text) ->
  Forall one_arrow (PyStr.splitlines text) ->
  timing_place (PyStr.splitlines text) i ->
  PyStr.splitlines text !! i = Some l ->
  map PyStr.strip (PyStr.split "-->" (PyStr.strip l)) = [start_str; end_str] ->
  parse_timecode start_str = Ok s -> parse_timecode end_str = Ok e ->
  exists cues,
    parse_srt fs path = ([], Returned cues) /\
    In (s, e, text_run (drop (S i) (PyStr.splitlines text))) cues.
Proof.
  intros Hfs Hall Hplace Hl Hsplit Hs He.
  destruct (parse_lines_returns _ Hall) as [cues Hret].
  exists cues. unfold parse_srt. rewrite Hfs, Hret. split; [reflexivity|].
  eapply parse_lines_emits; eassumption.
Qed.

Local Close Scope string_scope.

(** ** Buffers *)

Lemma lookup_total_end {A} `{!Inhabited A} (l : list A) x r :
  (l ++ x :: r) !!! List.length l = x.
Proof. apply list_lookup_total_middle. reflexivity. Qed.

Lemma lookup_total_end1 {A} `{!Inhabited A} (l : list A) x y r :
  (l ++ x :: y :: r) !!! S (List.length l) = y.
Proof.
  change (l ++ x :: y :: r)%list with (l ++ [x] ++ y :: r)%list.
  rewrite app_assoc. apply list_lookup_total_middle.
  rewrite length_app. simpl. lia.
Qed.

Lemma alter_end {A} (g : A -> A) (l : list A) x r :
  alter g (List.length l) (l ++ x :: r) = (l ++ g x :: r)%list.
Proof.
  rewrite <- (Nat.add_0_r (List.length l)). rewrite alter_app_r. reflexivity.
Qed.

Lemma alter_end1 {A} (g : A -> A) (l : list A) x y r :
  alter g (S (List.length l)) (l ++ x :: y :: r) = (l ++ x :: g y :: r)%list.
Proof.
  replace (S (List.length l)) with (List.length l + 1)%nat by lia.
  rewrite alter_app_r. reflexivity.
Qed.

Lemma draw_lines_heap H x r tr n w y items :
  n = List.length H ->
  heap (draw_lines (World (H ++ x :: r) tr) n w y items) =
  (H ++ text_drawn (text_calls w y items) x :: r)%list.
Proof.
  intros ->. revert x tr y. induction items as [|[line [lw lh]] items IH]; intros x tr y.
  - reflexivity.
  - cbn [draw_lines text_calls]. unfold cv_putText, update, emit. simpl heap.
    rewrite alter_end. simpl trace. rewrite IH. reflexivity.
Qed.

(** The buffers after [overlay_subtitle]: the old ones as they were, then
    the result, then the scratch copy that held the rectangle. *)
Lemma overlay_subtitle_heap wd frame_ f l ls :
  heap wd !! frame_ = Some f ->
  let '(wd', result) := overlay_subtitle wd frame_ (l :: ls) in
  result = List.length (heap wd) /\
  exists scratch,
    heap wd' = (heap wd ++ [captioned f (l :: ls); scratch])%list.
Proof.
  intros Hf. unfold overlay_subtitle, np_copy, alloc. cbn [heap trace].
  rewrite (list_lookup_total_correct _ _ _ Hf).
  rewrite lookup_total_end.
  destruct (shape2 f) as [h w] eqn:Hshape.
  unfold cv_addWeighted, cv_rectangle, update, emit. cbn [heap trace].
  rewrite length_app. cbn [List.length]. rewrite Nat.add_1_r.
  rewrite <- !app_assoc. cbn [app].
  rewrite alter_end1, lookup_total_end1, lookup_total_end, alter_end.
  split; [reflexivity|].
  rewrite draw_lines_heap by reflexivity.
  eexists. unfold captioned, caption_rect_of, caption_calls, caption_rect, block_size.
  rewrite Hshape. reflexivity.
Qed.

Lemma overlay_subtitle_copy wd frame_ f :
  heap wd !! frame_ = Some f ->
  overlay_subtitle wd frame_ [] =
  (World (heap wd ++ [f])%list (trace wd), List.length (heap wd)).
Proof.
  intros Hf. unfold overlay_subtitle, np_copy, alloc. cbn [heap trace].
  rewrite (list_lookup_total_correct _ _ _ Hf), lookup_total_end.
  destruct (shape2 f) as [h w]. reflexivity.
Qed.

(** ** Pixels *)

Lemma pixel_at_map_pixels g f x y :
  pixel_at (map_pixels g f) x y = g (Z.of_nat x) (Z.of_nat y) <$> pixel_at f x y.
Proof.
  unfold pixel_at, map_pixels. rewrite list_lookup_imap.
  destruct (f !! y) as [row|]; simpl; [|reflexivity].
  rewrite list_lookup_imap. reflexivity.
Qed.

Lemma pixel_at_add_weighted f1 alpha f2 beta gamma x y :
  pixel_at (add_weighted f1 alpha f2 beta gamma) x y =
  match pixel_at f1 x y, pixel_at f2 x y with
  | Some p, Some q => Some (zip_with (weighted alpha beta gamma) p q)
  | _, _ => None
  end.
Proof.
  unfold pixel_at, add_weighted. rewrite lookup_zip_with.
  destruct (f1 !! y) as [r1|]; simpl; [|reflexivity].
  destruct (f2 !! y) as [r2|]; simpl.
  - rewrite lookup_zip_with.
    destruct (r1 !! x); simpl; [|reflexivity].
    destruct (r2 !! x); reflexivity.
  - destruct (r1 !! x); reflexivity.
Qed.

Lemma paint_black (p : pixel) : paint [0; 0; 0]%Z p = (fun _ => 0%Z) <$> p.
Proof.
  unfold paint. rewrite <- imap_const. apply imap_ext.
  intros i v _. destruct i as [|[|[|[|i]]]]; reflexivity.
Qed.

Lemma zip_with_fmap_const {A B C} (h : A -> B -> C) (a : A) (l : list B) :
  zip_with h ((fun _ => a) <$> l) l = h a <$> l.
Proof. induction l as [|b l IH]; csimpl; [reflexivity | rewrite IH; reflexivity]. Qed.

Lemma zip_with_same {A C} (h : A -> A -> C) (l : list A) :
  zip_with h l l = (fun a => h a a) <$> l.
Proof. induction l as [|b l IH]; csimpl; [reflexivity | rewrite IH; reflexivity]. Qed.

Lemma cvRound_comp (q q' : Q) : (q == q')%Q -> cvRound q = cvRound q'.
Proof.
  intros Hq. unfold cvRound. rewrite (Qfloor_comp _ _ Hq).
  assert ((q - inject_Z (Qfloor q') ?= 1 # 2) = (q' - inject_Z (Qfloor q') ?= 1 # 2))%Q as ->.
  { apply Qcompare_comp; [rewrite Hq|]; reflexivity. }
  reflexivity.
Qed.

Lemma cvRound_int (v : Z) : cvRound (inject_Z v) = v.
Proof.
  unfold cvRound. rewrite Qfloor_Z.
  assert ((inject_Z v - inject_Z v ?= 1 # 2) = Lt)%Q as ->; [|reflexivity].
  unfold Qcompare, Qminus, Qplus, Qopp, inject_Z. simpl.
  apply Z.compare_lt_iff. lia.
Qed.

Lemma weighted_half_black (v : Z) :
  weighted (1 # 2) (1 - (1 # 2)) 0 0 v = half_black v.
Proof.
  unfold weighted, half_black, saturate_cast. f_equal. f_equal.
  apply cvRound_comp. ring.
Qed.

Lemma weighted_half_same (v : Z) :
  is_u8 v = true -> weighted (1 # 2) (1 - (1 # 2)) 0 v v = v.
Proof.
  unfold is_u8. intros [H0 H255]%andb_true_iff.
  apply Z.leb_le in H0, H255.
  unfold weighted, saturate_cast.
  rewrite (cvRound_comp _ (inject_Z v)) by ring.
  rewrite cvRound_int. lia.
Qed.

Lemma pixel_at_blended pt1 pt2 f x y :
  pixel_at (blended pt1 pt2 f) x y =
  (fun p : pixel =>
     if in_rect pt1 pt2 (Z.of_nat x) (Z.of_nat y)
     then half_black <$> p
     else (fun v => weighted (1 # 2) (1 - (1 # 2)) 0 v v) <$> p) <$> pixel_at f x y.
Proof.
  unfold blended. rewrite pixel_at_add_weighted. unfold fill_rect.
  rewrite pixel_at_map_pixels.
  destruct (pixel_at f x y) as [p|]; simpl; [|reflexivity].
  destruct (in_rect pt1 pt2 (Z.of_nat x) (Z.of_nat y)).
  - rewrite paint_black, zip_with_fmap_const. f_equal.
    apply list_fmap_ext. intros i v _. apply weighted_half_black.
  - rewrite zip_with_same. reflexivity.
Qed.

Lemma fmap_weighted_same (p : pixel) :
  forallb is_u8 p = true ->
  (fun v => weighted (1 # 2) (1 - (1 # 2)) 0 v v) <$> p = p.
Proof.
  induction p as [|v p IH]; csimpl; [reflexivity|].
  intros [Hv Hp]%andb_true_iff. rewrite (weighted_half_same _ Hv), (IH Hp). reflexivity.
Qed.

Lemma valid_frame_pixel f x y p :
  valid_frame f = true -> pixel_at f x y = Some p -> forallb is_u8 p = true.
Proof.
  unfold valid_frame, pixel_at. intros Hf.
  destruct (f !! y) as [row|] eqn:Hrow; [|discriminate]. intros Hp.
  rewrite forallb_forall in Hf.
  assert (forallb (forallb is_u8) row = true) as Hr.
  { apply Hf. apply list_elem_of_In. eapply list_elem_of_lookup_2, Hrow. }
  rewrite forallb_forall in Hr. apply Hr.
  apply list_elem_of_In. eapply list_elem_of_lookup_2, Hp.
Qed.

Lemma half_black_rounds (v : Z) :
  is_u8 v = true ->
  half_black v =
  if Z.even v then (v / 2)%Z
  else if Z.even (v / 2) then (v / 2)%Z else (v / 2 + 1)%Z.
Proof.
  intros [H0 H255]%andb_true_iff. apply Z.leb_le in H0, H255.
  assert (forallb (fun n =>
            let v := Z.of_nat n in
            (half_black v =?
             (if Z.even v then v / 2
              else if Z.even (v / 2) then v / 2 else v / 2 + 1))%Z)
            (seq 0 256) = true) as Hall by (vm_compute; reflexivity).
  rewrite forallb_forall in Hall.
  specialize (Hall (Z.to_nat v)). rewrite Z2Nat.id in Hall by exact H0.
  apply Z.eqb_eq, Hall, in_seq. lia.
Qed.

(** ** Shapes *)

Lemma shape3_map_pixels g f :
  (forall x y p, List.length (g x y p) = List.length p) ->
  shape3 (map_pixels g f) = shape3 f.
Proof.
  intros Hg. unfold shape3, map_pixels. apply list_eq. intros y.
  rewrite !list_lookup_fmap, list_lookup_imap.
  destruct (f !! y) as [row|]; simpl; [|reflexivity]. f_equal.
  apply list_eq. intros x.
  rewrite !list_lookup_fmap, list_lookup_imap.
  destruct (row !! x) as [p|]; simpl; [|reflexivity]. f_equal. apply Hg.
Qed.

Lemma length_paint color (p : pixel) : List.length (paint color p) = List.length p.
Proof. apply length_imap. Qed.

Lemma shape3_blended pt1 pt2 f : shape3 (blended pt1 pt2 f) = shape3 f.
Proof.
  unfold shape3, blended, add_weighted, fill_rect, map_pixels. apply list_eq. intros y.
  rewrite !list_lookup_fmap, lookup_zip_with, list_lookup_imap.
  destruct (f !! y) as [row|]; simpl; [|reflexivity]. f_equal.
  apply list_eq. intros x.
  rewrite !list_lookup_fmap, lookup_zip_with, list_lookup_imap.
  destruct (row !! x) as [p|]; simpl; [|reflexivity]. f_equal.
  rewrite length_zip_with.
  destruct (in_rect _ _ _ _); rewrite ?length_paint; lia.
Qed.

Lemma shape3_shape2 (f g : frame) : shape3 f = shape3 g -> shape2 f = shape2 g.
Proof.
  unfold shape3, shape2. intros H.
  pose proof (f_equal (@List.length _) H) as Hlen. rewrite !length_map in Hlen.
  destruct f as [|r1 f], g as [|r2 g]; try discriminate; [reflexivity|].
  simpl in *. injection H as Hr _.
  apply (f_equal (@List.length _)) in Hr. rewrite !length_map in Hr.
  rewrite Hr. congruence.
Qed.

Lemma pixel_at_text_drawn calls f x y :
  pixel_at (text_drawn calls f) x y =
  text_px calls (Z.of_nat x) (Z.of_nat y) <$> pixel_at f x y.
Proof.
  revert f. induction calls as [|call calls IH]; intros f.
  - simpl. destruct (pixel_at f x y); reflexivity.
  - change (text_drawn (call :: calls) f)
      with (text_drawn calls (map_pixels (put_text_px call.1 call.2) f)).
    rewrite IH, pixel_at_map_pixels. destruct (pixel_at f x y); reflexivity.
Qed.

Lemma text_px_free calls x y p : text_free calls x y -> text_px calls x y p = p.
Proof.
  induction 1 as [|call calls Hc _ IH]; [reflexivity|].
  change (text_px (call :: calls) x y p)
    with (text_px calls x y (put_text_px call.1 call.2 x y p)).
  rewrite Hc. exact IH.
Qed.

Lemma shape3_text_drawn calls f :
  (forall text org x y p, List.length (put_text_px text org x y p) = List.length p) ->
  shape3 (text_drawn calls f) = shape3 f.
Proof.
  intros Hlen. revert f. induction calls as [|call calls IH]; intros f; [reflexivity|].
  change (text_drawn (call :: calls) f)
    with (text_drawn calls (map_pixels (put_text_px call.1 call.2) f)).
  rewrite IH. apply shape3_map_pixels. intros x y p. apply Hlen.
Qed.

(** ** The block of text *)

Lemma fold_left_max_ge xs x : (x <= fold_left Z.max xs x)%Z.
Proof.
  revert x. induction xs as [|a xs IH]; intros x; simpl; [lia|].
  specialize (IH (Z.max x a)). lia.
Qed.

Lemma fold_left_max_bound xs x a :
  a ∈ xs -> (a <= fold_left Z.max xs x)%Z.
Proof.
  revert x. induction xs as [|b xs IH]; intros x Ha; [inversion Ha|].
  simpl. apply elem_of_cons in Ha as [->|Ha].
  - pose proof (fold_left_max_ge xs (Z.max x b)). lia.
  - apply IH, Ha.
Qed.

Lemma fold_left_max_attained xs x :
  fold_left Z.max xs x = x \/ fold_left Z.max xs x ∈ xs.
Proof.
  revert x. induction xs as [|b xs IH]; intros x; simpl; [left; reflexivity|].
  destruct (IH (Z.max x b)) as [H|H].
  - rewrite H. destruct (Z.max_spec x b) as [[_ ->]|[_ ->]]; [right; left | left; reflexivity].
  - right. right. exact H.
Qed.

Lemma py_max_bound xs a : a ∈ xs -> (a <= py_max xs)%Z.
Proof.
  destruct xs as [|x xs]; [inversion 1|]. simpl.
  intros [->|Ha]%elem_of_cons; [apply fold_left_max_ge | apply fold_left_max_bound, Ha].
Qed.

Lemma py_max_attained x xs : py_max (x :: xs) ∈ x :: xs.
Proof.
  simpl. destruct (fold_left_max_attained xs x) as [->|H]; [left | right; exact H].
Qed.

Lemma py_sum_sumZ xs : py_sum xs = sumZ xs.
Proof.
  unfold py_sum. rewrite <- (Z.add_0_l (sumZ xs)). generalize 0%Z.
  induction xs as [|x xs IH]; intros a; simpl; [lia|].
  rewrite IH. lia.
Qed.

Lemma pixel_at_captioned f lines x y p :
  pixel_at f x y = Some p ->
  text_free (caption_calls f lines) (Z.of_nat x) (Z.of_nat y) ->
  pixel_at (captioned f lines) x y =
  Some (if in_rect (caption_rect_of f lines).1 (caption_rect_of f lines).2
             (Z.of_nat x) (Z.of_nat y)
        then half_black <$> p
        else (fun v => weighted (1 # 2) (1 - (1 # 2)) 0 v v) <$> p).
Proof.
  intros Hp Hfree. unfold captioned.
  destruct (caption_rect_of f lines) as [pt1 pt2]. cbn [fst snd].
  rewrite pixel_at_text_drawn, pixel_at_blended, Hp. simpl.
  rewrite text_px_free by exact Hfree. reflexivity.
Qed.

Lemma shape3_captioned f lines :
  (forall text org x y p, List.length (put_text_px text org x y p) = List.length p) ->
  shape3 (captioned f lines) = shape3 f.
Proof.
  intros Hlen. unfold captioned. destruct (caption_rect_of f lines) as [pt1 pt2].
  rewrite shape3_text_drawn by exact Hlen. apply shape3_blended.
Qed.

(** ** Traces *)

Lemma last_decoded_snoc tr e :
  last_decoded (tr ++ [e]) =
  match e with CapRead (Some f) => Some f | _ => last_decoded tr end.
Proof. unfold last_decoded. rewrite fold_left_app. reflexivity. Qed.

Lemma last_decoded_quiet tr evs :
  forallb quiet evs = true -> last_decoded (tr ++ evs) = last_decoded tr.
Proof.
  induction evs as [|e evs IH] using rev_ind; intros H.
  - rewrite app_nil_r. reflexivity.
  - rewrite forallb_app in H. apply andb_true_iff in H as [H1 H2].
    rewrite app_assoc, last_decoded_snoc, (IH H1).
    destruct e as [| [|] | | | | | ]; try reflexivity; discriminate.
Qed.

Lemma screenshots_raw_nil : screenshots_raw [].
Proof. intros [|e pre] path img post H; discriminate. Qed.

Lemma screenshots_raw_snoc tr e :
  screenshots_raw tr ->
  (forall path img, e = Imwrite path img -> last_decoded tr = Some img) ->
  screenshots_raw (tr ++ [e]).
Proof.
  intros Htr He pre path img post Heq.
  destruct post as [|e' post _] using rev_ind.
  - apply app_inj_tail in Heq as [-> ->]. eapply He. reflexivity.
  - rewrite app_comm_cons, app_assoc in Heq.
    apply app_inj_tail in Heq as [-> _]. eapply Htr. reflexivity.
Qed.

Lemma screenshots_raw_quiet tr evs :
  screenshots_raw tr -> forallb quiet evs = true -> screenshots_raw (tr ++ evs).
Proof.
  intros Htr. induction evs as [|e evs IH] using rev_ind; intros H.
  - rewrite app_nil_r. exact Htr.
  - rewrite forallb_app in H. apply andb_true_iff in H as [H1 H2].
    rewrite app_assoc. apply screenshots_raw_snoc; [apply IH, H1|].
    intros path img ->. discriminate.
Qed.

(** ** Worlds *)

Lemma extends_refl wd : extends wd wd.
Proof. split; [auto|]. exists []. rewrite app_nil_r. split; reflexivity. Qed.

Lemma extends_trans wd1 wd2 wd3 : extends wd1 wd2 -> extends wd2 wd3 -> extends wd1 wd3.
Proof.
  intros [H1 (evs1 & T1 & Q1)] [H2 (evs2 & T2 & Q2)]. split; [auto|].
  exists (evs1 ++ evs2)%list. rewrite T2, T1, app_assoc, forallb_app, Q1, Q2.
  split; reflexivity.
Qed.

Lemma extends_emit e wd : quiet e = true -> extends wd (emit e wd).
Proof.
  intros He. split; [auto|]. exists [e]. simpl. rewrite He. split; reflexivity.
Qed.

Lemma extends_alloc f wd : extends wd (alloc f wd).1.
Proof.
  split; [intros a g Ha; apply lookup_app_l_Some, Ha|].
  exists []. simpl. rewrite app_nil_r. split; reflexivity.
Qed.

Lemma draw_lines_trace wd result w y items :
  exists evs,
    trace (draw_lines wd result w y items) = (trace wd ++ evs)%list /\
    forallb quiet evs = true.
Proof.
  revert wd y. induction items as [|[line [lw lh]] items IH]; intros wd y.
  - exists []. rewrite app_nil_r. split; reflexivity.
  - cbn [draw_lines].
    destruct (IH (cv_putText wd result line
                    ((w - lw) / 2, y + lh)%Z) (y + lh + line_spacing)%Z)
      as (evs & Ht & Hq).
    eexists (_ :: evs). rewrite Ht. unfold cv_putText, emit, update. cbn [trace].
    rewrite <- app_assoc. split; [reflexivity | exact Hq].
Qed.

Lemma overlay_subtitle_trace wd frame_ lines :
  exists evs,
    trace (overlay_subtitle wd frame_ lines).1 = (trace wd ++ evs)%list /\
    forallb quiet evs = true.
Proof.
  unfold overlay_subtitle, np_copy, alloc. cbn [heap trace].
  destruct (shape2 _) as [h w].
  destruct lines as [|l ls].
  - exists []. rewrite app_nil_r. split; reflexivity.
  - cbn [fst].
    match goal with |- context [draw_lines ?wd0 ?r ?w0 ?y0 ?it] =>
      destruct (draw_lines_trace wd0 r w0 y0 it) as (evs & Ht & Hq)
    end.
    rewrite Ht. unfold cv_addWeighted, cv_rectangle, emit, update. cbn [trace].
    eexists (_ :: _ :: evs). rewrite <- !app_assoc. split; [reflexivity | exact Hq].
Qed.

Lemma overlay_subtitle_extends wd frame_ f lines :
  heap wd !! frame_ = Some f ->
  extends wd (overlay_subtitle wd frame_ lines).1.
Proof.
  intros Hf. split; [|apply overlay_subtitle_trace].
  destruct lines as [|l ls].
  - rewrite (overlay_subtitle_copy wd frame_ f Hf).
    intros a g Ha. apply lookup_app_l_Some, Ha.
  - pose proof (overlay_subtitle_heap wd frame_ f l ls Hf) as H.
    destruct (overlay_subtitle wd frame_ (l :: ls)) as [wd' result].
    destruct H as [_ [scratch H]]. cbn [fst]. rewrite H.
    intros a g Ha. apply lookup_app_l_Some, Ha.
Qed.

Lemma extends_screenshots wd wd' :
  extends wd wd' -> screenshots_raw (trace wd) -> screenshots_raw (trace wd').
Proof.
  intros [_ (evs & -> & Hq)] H. apply screenshots_raw_quiet; assumption.
Qed.

Lemma extends_current wd wd' a img :
  extends wd wd' ->
  heap wd !! a = Some img -> last_decoded (trace wd) = Some img ->
  heap wd' !! a = Some img /\ last_decoded (trace wd') = Some img.
Proof.
  intros [Hh (evs & -> & Hq)] Ha Hl. split; [apply Hh, Ha|].
  rewrite last_decoded_quiet by exact Hq. exact Hl.
Qed.

(** ** The playback loop keeps what it saves apart from what it shows *)

Lemma on_key_keeps output_dir tk wd st cur img :
  current_frame st = Some cur ->
  heap wd !! cur = Some img -> last_decoded (trace wd) = Some img ->
  screenshots_raw (trace wd) ->
  let '(wd', ost') := on_key output_dir tk wd st cur in
  screenshots_raw (trace wd') /\
  forall st', ost' = Some st' -> holds_last_decoded wd' st'.
Proof.
  intros Hcur Ha Hl Hraw. unfold on_key.
  assert (holds_last_decoded wd st) as Hst.
  { intros a Ha'. rewrite Hcur in Ha'. injection Ha' as <-. eauto. }
  destruct (_ || _).
  { split; [|discriminate].
    apply (extends_screenshots wd); [apply extends_emit; reflexivity | exact Hraw]. }
  destruct (_ =? 32)%Z.
  { split; [exact Hraw|]. intros st' [= <-]. exact Hst. }
  destruct (_ =? 115)%Z.
  2:{ split; [exact Hraw|]. intros st' [= <-]. exact Hst. }
  rewrite (list_lookup_total_correct _ _ _ Ha).
  set (filepath := path_join _ _).
  assert (screenshots_raw (trace (emit (Imwrite filepath img) wd))) as Hraw'.
  { apply screenshots_raw_snoc; [exact Hraw|]. intros path img' [= _ <-]. exact Hl. }
  split.
  - apply screenshots_raw_snoc; [exact Hraw'|]. discriminate.
  - intros st' [= <-] a Ha'. rewrite Hcur in Ha'. injection Ha' as <-.
    exists img. split; [exact Ha|].
    cbn [emit trace heap]. rewrite !last_decoded_snoc. exact Hl.
Qed.

Lemma show_and_react_keeps cues output_dir tk wd st cur img :
  current_frame st = Some cur ->
  heap wd !! cur = Some img -> last_decoded (trace wd) = Some img ->
  screenshots_raw (trace wd) ->
  let '(wd', ost') := show_and_react cues output_dir tk wd st cur in
  screenshots_raw (trace wd') /\
  forall st', ost' = Some st' -> holds_last_decoded wd' st'.
Proof.
  intros Hcur Ha Hl Hraw. unfold show_and_react, np_copy.
  rewrite (list_lookup_total_correct _ _ _ Ha).
  pose proof (extends_alloc img wd) as Hext.
  destruct (alloc img wd) as [wd1 display_frame] eqn:Halloc. cbn [fst] in Hext.
  assert (heap wd1 !! display_frame = Some img) as Hdisp.
  { unfold alloc in Halloc. injection Halloc as <- <-. cbn [heap].
    apply list_lookup_middle. reflexivity. }
  set (shown := match cues with
                | [] => (wd1, display_frame)
                | _ :: _ => _
                end).
  assert (extends wd1 shown.1) as Hext2.
  { subst shown. destruct cues as [|c cues']; [apply extends_refl|].
    destruct (find_active_cue _ _) as [[|l ls]|]; try apply extends_refl.
    eapply overlay_subtitle_extends, Hdisp. }
  destruct shown as [wd2 display_frame2]. cbn [fst] in Hext2.
  pose proof (extends_trans _ _ _ Hext Hext2) as Hext3.
  pose proof (extends_trans _ _ _ Hext3
                (extends_emit (Imshow window_name (heap wd2 !!! display_frame2)) wd2 eq_refl))
    as Hext4.
  destruct (extends_current _ _ _ _ Hext4 Ha Hl) as [Ha4 Hl4].
  apply (on_key_keeps output_dir tk _ st cur img Hcur Ha4 Hl4).
  eapply extends_screenshots; eassumption.
Qed.

Lemma loop_pass_keeps cues output_dir tk wd st :
  screenshots_raw (trace wd) -> holds_last_decoded wd st ->
  let '(wd', ost') := loop_pass cues output_dir tk wd st in
  screenshots_raw (trace wd') /\
  forall st', ost' = Some st' -> holds_last_decoded wd' st'.
Proof.
  intros Hraw Hst. unfold loop_pass.
  destruct (paused st) eqn:Hp.
  - destruct (current_frame st) as [cur|] eqn:Hcur.
    + destruct (Hst cur Hcur) as (img & Ha & Hl).
      apply (show_and_react_keeps cues output_dir tk wd st cur img Hcur Ha Hl Hraw).
    + split; [exact Hraw | discriminate].
  - destruct (t_read tk) as [f|].
    + unfold alloc, emit. cbn [heap trace current_frame].
      eapply (show_and_react_keeps cues output_dir tk _ _ _ f).
      * reflexivity.
      * cbn [heap]. apply list_lookup_middle. reflexivity.
      * cbn [trace]. apply last_decoded_snoc.
      * cbn [trace]. apply screenshots_raw_snoc; [exact Hraw | discriminate].
    + split; [|discriminate]. unfold emit. cbn [trace].
      apply screenshots_raw_snoc; [|discriminate].
      apply screenshots_raw_snoc; [exact Hraw | discriminate].
Qed.

Lemma main_loop_keeps cues output_dir ticks wd st :
  screenshots_raw (trace wd) -> holds_last_decoded wd st ->
  screenshots_raw (trace (main_loop cues output_dir ticks wd st).1).
Proof.
  revert wd st. induction ticks as [|tk ticks IH]; intros wd st Hraw Hst.
  - exact Hraw.
  - cbn [main_loop].
    pose proof (loop_pass_keeps cues output_dir tk wd st Hraw Hst) as H.
    destruct (loop_pass cues output_dir tk wd st) as [wd' [st'|]].
    + destruct H as [Hraw' Hst']. apply IH; [exact Hraw' | apply Hst'; reflexivity].
    + apply H.
Qed.

(** * The claims of the specification *)

Local Open Scope string_scope.

(** C1.  Parsing the block made of the timing line
    [00:00:01,500 --> 00:00:03,000], the text lines [Hello] and [World] and
    a blank line gives exactly one cue, with start 1.5, end 3.0 and the two
    lines in order; each time is hours*3600 + minutes*60 + seconds +
    milliseconds/1000 of its time code. *)
Theorem parse_srt_known_good_block (fs : filesystem) (path : string) :
  fs path = Some (Readable known_good_block) ->
  parse_srt fs path = ([], Returned [(1.5%float, 3%float, ["Hello"; "World"])]) /\
  parse_timecode "00:00:01,500" = total_seconds 0 0 1 500 /\
  parse_timecode "00:00:03,000" = total_seconds 0 0 3 0 /\
  total_seconds 0 0 1 500 = Ok (1 + 500 / 1000)%float /\
  total_seconds 0 0 3 0 = Ok (3 + 0 / 1000)%float /\
  (1 + 500 / 1000)%float = 1.5%float /\
  (3 + 0 / 1000)%float = 3%float.
Proof.
  intros Hfs. unfold parse_srt. rewrite Hfs.
  repeat split; vm_compute; reflexivity.
Qed.

(** C2.  [find_active_cue] returns the lines of the first cue, in the
    order of the collection, whose closed interval holds the time, and
    [None] when no interval does; a time equal to the start or to the end
    of a cue is inside; of two overlapping cues the earlier one wins. *)
Theorem find_active_cue_first_match (cues : list cue) (t : float) :
  (forall lines,
     find_active_cue cues t = Some lines <->
     exists pre c post,
       cues = (pre ++ c :: post)%list /\
       Forall (fun c' => active c' t = false) pre /\
       active c t = true /\ c.2 = lines) /\
  (find_active_cue cues t = None <-> Forall (fun c => active c t = false) cues) /\
  (forall s e, (s <=? e)%float = true ->
     (t =? s)%float = true \/ (t =? e)%float = true -> within s e t = true) /\
  (forall s e lines rest, (s <=? e)%float = true ->
     find_active_cue ((s, e, lines) :: rest) s = Some lines /\
     find_active_cue ((s, e, lines) :: rest) e = Some lines) /\
  (forall a b, find_active_cue [(0, 5, a); (2, 8, b)]%float 3%float = Some a).
Proof.
  split; [|split; [|split; [|split]]].
  - intros lines. apply find_active_cue_some.
  - apply find_active_cue_none.
  - intros s e. apply within_endpoints.
  - intros s e lines rest Hse. rewrite !find_active_cue_cons. unfold active. simpl.
    rewrite (within_start _ _ Hse), (within_end _ _ Hse). split; reflexivity.
  - intros a b. reflexivity.
Qed.

(** C3.  Malformed subtitle text should never be fatal; on a timing line
    that holds the separator twice [parse_srt] raises [ValueError]. *)
Theorem parse_srt_double_arrow_raises (path : string) :
  parse_srt (fun _ => Some (Readable double_arrow_text)) path = ([], Raised ValueError).
Proof. reflexivity. Qed.

(** C4.  For a path that does not exist [parse_srt] reports it, returns
    the empty collection and does not raise; every lookup in the empty
    collection finds no active cue. *)
Theorem parse_srt_missing_file (fs : filesystem) (path : string) :
  fs path = None ->
  parse_srt fs path =
    (["Subtitle file '" ++ path ++ "' does not exist. Continuing without subtitles."],
     Returned []) /\
  forall t, find_active_cue [] t = None.
Proof.
  intros Hfs. unfold parse_srt. rewrite Hfs. split; reflexivity.
Qed.

(** C5.  With no line to draw, [overlay_subtitle] makes a plain copy: one
    new buffer that holds the frame as it is, pixel for pixel, no drawing
    call of any kind, and no other buffer made or changed. *)
Theorem overlay_subtitle_no_lines (wd : world) (frame_ : addr) (f : frame) :
  heap wd !! frame_ = Some f ->
  let '(wd', result) := overlay_subtitle wd frame_ [] in
  heap wd' !! result = Some f /\
  trace wd' = trace wd /\
  heap wd' = (heap wd ++ [f])%list /\
  result <> frame_.
Proof.
  intros Hf. rewrite (overlay_subtitle_copy wd frame_ f Hf).
  cbn [heap trace]. repeat split.
  - apply list_lookup_middle. reflexivity.
  - apply lookup_lt_Some in Hf. lia.
Qed.

(** C6.  With lines to draw, [overlay_subtitle] leaves the frame it was
    given, and every other buffer there was, as it found them; the result
    is a buffer that did not exist before, of the shape of the input, and
    each of its pixels that lies outside the rectangle and that no text
    call draws on has the value it has in the input. *)
Theorem overlay_subtitle_frame_effect
    (wd : world) (frame_ : addr) (f : frame) (l : string) (ls : list string) :
  heap wd !! frame_ = Some f ->
  valid_frame f = true ->
  (forall text org x y p, List.length (put_text_px text org x y p) = List.length p) ->
  let '(wd', result) := overlay_subtitle wd frame_ (l :: ls) in
  exists out,
    heap wd' !! result = Some out /\
    heap wd' !! frame_ = Some f /\
    (forall a g, heap wd !! a = Some g -> heap wd' !! a = Some g) /\
    result <> frame_ /\
    heap wd !! result = None /\
    shape3 out = shape3 f /\
    shape2 out = shape2 f /\
    forall x y p,
      pixel_at f x y = Some p ->
      in_rect (caption_rect_of f (l :: ls)).1 (caption_rect_of f (l :: ls)).2
        (Z.of_nat x) (Z.of_nat y) = false ->
      text_free (caption_calls f (l :: ls)) (Z.of_nat x) (Z.of_nat y) ->
      pixel_at out x y = Some p.
Proof.
  intros Hf Hvalid Hlen.
  pose proof (overlay_subtitle_heap wd frame_ f l ls Hf) as H.
  destruct (overlay_subtitle wd frame_ (l :: ls)) as [wd' result].
  destruct H as [-> [scratch Hheap]].
  exists (captioned f (l :: ls)).
  assert (shape3 (captioned f (l :: ls)) = shape3 f) as Hshape
    by (apply shape3_captioned, Hlen).
  rewrite Hheap. repeat split.
  - apply list_lookup_middle. reflexivity.
  - apply lookup_app_l_Some, Hf.
  - intros a g Ha. apply lookup_app_l_Some, Ha.
  - apply lookup_lt_Some in Hf. lia.
  - apply lookup_ge_None. lia.
  - exact Hshape.
  - apply shape3_shape2, Hshape.
  - intros x y p Hp Hout Hfree.
    rewrite (pixel_at_captioned f (l :: ls) x y p Hp Hfree), Hout.
    rewrite fmap_weighted_same; [reflexivity|].
    eapply valid_frame_pixel; eassumption.
Qed.

(** C7.  Whatever the cues, the frames, the positions and the keys, every
    image that the loop hands to [cv2.imwrite] is the frame that
    [cap.read()] delivered last, as it was delivered: the frame shown, with
    or without a caption, is another buffer. *)
Theorem screenshot_is_raw_frame
    (cues : list cue) (output_dir : string) (ticks : list tick) (buffers : list frame) :
  let wd := (main_loop cues output_dir ticks (World buffers []) initial_player).1 in
  forall pre path img post,
    trace wd = (pre ++ Imwrite path img :: post)%list ->
    exists before between,
      pre = (before ++ CapRead (Some img) :: between)%list /\
      forall e, e ∈ between -> forall r, e <> CapRead (Some r).
Proof.
  intros wd pre path img post Htr.
  assert (screenshots_raw (trace wd)) as Hraw.
  { apply main_loop_keeps; [apply screenshots_raw_nil|]. intros a [=]. }
  specialize (Hraw pre path img post Htr). clear Htr.
  induction pre as [|e pre IH] using rev_ind; [discriminate|].
  rewrite last_decoded_snoc in Hraw.
  destruct e as [s|[f|]| | | | |];
    try (destruct (IH Hraw) as (before & between & -> & Hb);
         eexists before, (between ++ [_])%list;
         split; [rewrite <- app_assoc; reflexivity|];
         intros e' He' r; apply elem_of_app in He' as [He'|He'];
         [apply Hb, He' | apply list_elem_of_singleton in He' as ->; discriminate]).
  injection Hraw as ->. exists pre, []. split; [reflexivity|]. intros e' He'. inversion He'.
Qed.

(** C8.  For [n] lines the block of text is as wide as the widest line
    and as high as the lines together plus [n - 1] gaps of [line_spacing];
    the rectangle is that block with its padding; the frame on which the
    text is then drawn is the input with black blended in at one half over
    the rectangle, so that a pixel inside the rectangle holds
    0.5 * 0 + 0.5 * original in each channel, stored as 8 bits. *)
Theorem caption_block_and_backing
    (wd : world) (frame_ : addr) (f : frame) (l : string) (ls : list string) :
  heap wd !! frame_ = Some f ->
  let lines := l :: ls in
  let max_width := (block_size lines).1 in
  let total_text_height := (block_size lines).2 in
  let pt1 := (caption_rect_of f lines).1 in
  let pt2 := (caption_rect_of f lines).2 in
  (forall line, line ∈ lines -> ((text_size line).1 <= max_width)%Z) /\
  (exists line, line ∈ lines /\ (text_size line).1 = max_width) /\
  total_text_height =
    (sumZ (map (fun line => (text_size line).2) lines)
     + (Z.of_nat (List.length lines) - 1) * line_spacing)%Z /\
  (pt2.1 - pt1.1 = max_width + 20)%Z /\
  (pt2.2 - pt1.2 = total_text_height + 10)%Z /\
  (let '(wd', result) := overlay_subtitle wd frame_ lines in
   heap wd' !! result =
     Some (text_drawn (caption_calls f lines) (blended pt1 pt2 f))) /\
  (forall x y p,
     pixel_at f x y = Some p ->
     in_rect pt1 pt2 (Z.of_nat x) (Z.of_nat y) = true ->
     pixel_at (blended pt1 pt2 f) x y = Some (half_black <$> p) /\
     (text_free (caption_calls f lines) (Z.of_nat x) (Z.of_nat y) ->
      pixel_at (captioned f lines) x y = Some (half_black <$> p))) /\
  (forall v, is_u8 v = true ->
     half_black v =
     if Z.even v then (v / 2)%Z
     else if Z.even (v / 2) then (v / 2)%Z else (v / 2 + 1)%Z).
Proof.
  intros Hf lines max_width total_text_height pt1 pt2.
  split; [|split; [|split; [|split; [|split; [|split; [|split]]]]]].
  - intros line Hline. subst max_width. unfold block_size. cbn [fst].
    apply py_max_bound. rewrite <- list_fmap_compose.
    apply (list_elem_of_fmap_2 (fst ∘ text_size)), Hline.
  - subst max_width lines. unfold block_size. cbn [fst].
    pose proof (py_max_attained (text_size l).1 (map fst (map text_size ls))) as H.
    change (py_max (map fst (map text_size (l :: ls))))
      with (py_max ((text_size l).1 :: map fst (map text_size ls))).
    rewrite <- list_fmap_compose in H |- *.
    apply elem_of_cons in H as [H|H].
    + exists l. split; [left | symmetry; exact H].
    + apply list_elem_of_fmap in H as (line & Heq & Hin).
      exists line. split; [right; exact Hin | symmetry; exact Heq].
  - subst total_text_height. unfold block_size. cbn [snd].
    rewrite py_sum_sumZ. do 2 f_equal.
    rewrite <- list_fmap_compose. reflexivity.
  - subst pt1 pt2 max_width. unfold caption_rect_of, caption_rect.
    destruct (block_size lines) as [mw th]. cbn [fst snd]. lia.
  - subst pt1 pt2 total_text_height. unfold caption_rect_of, caption_rect.
    destruct (block_size lines) as [mw th]. cbn [fst snd]. lia.
  - pose proof (overlay_subtitle_heap wd frame_ f l ls Hf) as H.
    subst lines. destruct (overlay_subtitle wd frame_ (l :: ls)) as [wd' result].
    destruct H as [-> [scratch Hheap]]. rewrite Hheap.
    rewrite list_lookup_middle by reflexivity.
    unfold captioned. subst pt1 pt2.
    destruct (caption_rect_of f (l :: ls)) as [q1 q2]. reflexivity.
  - intros x y p Hp Hin. split.
    + rewrite pixel_at_blended, Hp, Hin. reflexivity.
    + intros Hfree. rewrite (pixel_at_captioned f lines x y p Hp Hfree).
      fold pt1 pt2. rewrite Hin. reflexivity.
  - apply half_black_rounds.
Qed.

(** C9.  A cue whose start is after its end matches no time: it is never
    the answer of a lookup, which goes as if the cue were not in the
    collection.  And the parser does not compare the two times: a timing
    line that stands where a block has its timing line (first line of the
    block, or after its index line) and whose two time codes are read gives
    a cue with the two times as they are, also when the end is before the
    start, and the file is parsed without an exception as far as this line
    is concerned. *)
Theorem degenerate_cue_never_matches
    (pre post : list cue) (s e : float) (lines : list string) (t : float) :
  (e <? s)%float = true ->
  active (s, e, lines) t = false /\
  find_active_cue (pre ++ (s, e, lines) :: post) t = find_active_cue (pre ++ post) t /\
  (forall (fs : filesystem) (path text : string) (i : nat) (l start_str end_str : string),
     fs path = Some (Readable text) ->
     Forall one_arrow (PyStr.splitlines text) ->
     timing_place (PyStr.splitlines text) i ->
     PyStr.splitlines text !! i = Some l ->
     map PyStr.strip (PyStr.split "-->" (PyStr.strip l)) = [start_str; end_str] ->
     parse_timecode start_str = Ok s -> parse_timecode end_str = Ok e ->
     exists cues,
       parse_srt fs path = ([], Returned cues) /\
       In (s, e, text_run (drop (S i) (PyStr.splitlines text))) cues /\
       forall t', find_active_cue [(s, e, text_run (drop (S i) (PyStr.splitlines text)))] t'
                  = None).
Proof.
  intros Hes.
  assert (forall ls t', active (s, e, ls) t' = false) as Ha
    by (intros ls t'; apply within_degenerate, Hes).
  split; [apply Ha|]. split; [apply find_active_cue_drop, Ha|].
  intros fs path text i l start_str end_str Hfs Hall Hplace Hl Hsplit Hs He.
  destruct (parse_srt_emits fs path text i l start_str end_str s e
              Hfs Hall Hplace Hl Hsplit Hs He) as (cues & Hret & Hin).
  exists cues. split; [exact Hret|]. split; [exact Hin|].
  intros t'. rewrite find_active_cue_cons, Ha. reflexivity.
Qed.



(** * Further properties of the code *)

(** ** The parser *)

(** X1.  [parse_srt] on a path that exists prints nothing and comes to an
    end.  When [open()] refuses the path, as it does for a directory or a
    file that may not be read, its [OSError] is what [parse_srt] raises.
    When the path is read, [parse_srt] returns whenever no line holds the
    separator twice, and the only exception it can raise is the
    [ValueError] of such a line. *)
Theorem parse_srt_ends (fs : filesystem) (path : string) (found : entry) :
  fs path = Some found ->
  (parse_srt fs path).1 = [] /\
  (parse_srt fs path).2 <> OutOfFuel /\
  match found with
  | Unreadable => (parse_srt fs path).2 = Raised OSError
  | Readable text =>
      (Forall one_arrow (PyStr.splitlines text) ->
       exists cues, (parse_srt fs path).2 = Returned cues) /\
      (forall e, (parse_srt fs path).2 = Raised e ->
         e = ValueError /\ ~ Forall one_arrow (PyStr.splitlines text))
  end.
Proof.
  intros Hfs. unfold parse_srt. rewrite Hfs.
  destruct found as [text|]; cbn [fst snd].
  - split; [reflexivity|]. split; [apply parse_lines_total|]. split.
    + apply parse_lines_returns.
    + intros e He. split; [eapply srt_loop_raises, He|].
      intros Hall. destruct (parse_lines_returns _ Hall) as [cues Hc]. congruence.
  - split; [reflexivity|]. split; [discriminate | reflexivity].
Qed.

(** X2.  Every cue that [parse_srt] returns is the cue of a timing line of
    the file: its two times are those of the two time codes of the line,
    its text is the run of lines below the line up to the first blank one,
    each without its trailing carriage returns; and the cues stand in the
    order of their timing lines. *)
Theorem parse_srt_cues_from_file (fs : filesystem) (path text : string) (cues : list cue) :
  fs path = Some (Readable text) ->
  (parse_srt fs path).2 = Returned cues ->
  cues_at (PyStr.splitlines text) 0 (List.length (PyStr.splitlines text)) cues.
Proof.
  intros Hfs. unfold parse_srt. rewrite Hfs. cbn [snd].
  apply srt_loop_cues_at. exact I.
Qed.

(** X3.  [parse_srt] returns at most one cue for each line that holds the
    separator; a file none of whose lines holds it gives no cue at all. *)
Theorem parse_srt_cue_count (fs : filesystem) (path text : string) (cues : list cue) :
  fs path = Some (Readable text) ->
  (parse_srt fs path).2 = Returned cues ->
  (List.length cues <= arrow_lines (PyStr.splitlines text))%nat /\
  (arrow_lines (PyStr.splitlines text) = 0%nat -> cues = []).
Proof.
  intros Hfs Hret.
  assert (List.length cues <= arrow_lines (PyStr.splitlines text))%nat as Hle.
  { unfold parse_srt in Hret. rewrite Hfs in Hret. cbn [snd] in Hret.
    apply (cues_at_count _ 0 (List.length (PyStr.splitlines text))).
    apply (srt_loop_cues_at _ _ 0 [] cues I Hret). }
  split; [exact Hle|]. intros H0. destruct cues; [reflexivity|]. simpl in Hle. lia.
Qed.

(** X4.  A time code without a comma is rejected, whatever else it holds:
    a dot or a colon before the milliseconds will not do. *)
Theorem parse_timecode_needs_comma (time_str : string) :
  PyStr.all_chars (fun c => negb (Ascii.eqb "," c)) time_str = true ->
  parse_timecode time_str = Raise ValueError.
Proof.
  intros H. unfold parse_timecode, parse_timecode_try, PyStr.split.
  rewrite (split_char_last _ _ _ H). reflexivity.
Qed.

(** ** The lookup *)

Lemma find_active_cue_app_eq cues1 cues2 t :
  find_active_cue (cues1 ++ cues2) t =
  match find_active_cue cues1 t with
  | Some lines => Some lines
  | None => find_active_cue cues2 t
  end.
Proof.
  induction cues1 as [|c cues1 IH]; [reflexivity|].
  rewrite <- app_comm_cons, !find_active_cue_cons.
  destruct (active c t); [reflexivity | exact IH].
Qed.

(** X5.  A lookup in two collections put end to end is the lookup in the
    first and, only when that finds nothing, the lookup in the second: cues
    added at the end never change an answer that was there. *)
Theorem find_active_cue_app (cues1 cues2 : list cue) (t : float) :
  find_active_cue (cues1 ++ cues2) t =
    match find_active_cue cues1 t with
    | Some lines => Some lines
    | None => find_active_cue cues2 t
    end /\
  (forall lines, find_active_cue cues1 t = Some lines ->
     find_active_cue (cues1 ++ cues2) t = Some lines).
Proof.
  split; [apply find_active_cue_app_eq|].
  intros lines H. rewrite find_active_cue_app_eq, H. reflexivity.
Qed.

Lemma SFeqb_nan x : SFeqb x x = false -> x = S754_nan.
Proof.
  unfold SFeqb. destruct x as [s|[]| |[] m e]; simpl; try discriminate; try reflexivity;
    rewrite Z.compare_refl;
    change (Pos.compare_cont Eq m m) with (Pos.compare m m);
    rewrite Pos.compare_refl; discriminate.
Qed.

Lemma float_nan_leb (x y : float) :
  is_nan x = true -> (x <=? y)%float = false /\ (y <=? x)%float = false.
Proof.
  unfold is_nan. rewrite negb_true_iff, FloatAxioms.eqb_spec. intros H.
  apply SFeqb_nan in H. rewrite !FloatAxioms.leb_spec, H.
  split; [reflexivity|]. unfold SFleb. destruct (Prim2SF y); reflexivity.
Qed.

(** X6.  A time that is not a number is inside no cue, and a cue one of
    whose times is not a number holds no time: the lookup goes as if the
    cue were not there. *)
Theorem find_active_cue_nan (pre post : list cue) (s e : float) (lines : list string) (t : float) :
  (is_nan t = true -> find_active_cue (pre ++ post) t = None) /\
  (is_nan s = true \/ is_nan e = true ->
   find_active_cue (pre ++ (s, e, lines) :: post) t = find_active_cue (pre ++ post) t).
Proof.
  split.
  - intros Ht. apply find_active_cue_none, Forall_forall. intros [[s' e'] ls] _.
    unfold active, within. cbn [fst snd].
    rewrite (proj2 (float_nan_leb t s' Ht)). reflexivity.
  - intros H. apply find_active_cue_drop. unfold active, within. cbn [fst snd].
    destruct H as [H|H].
    + rewrite (proj1 (float_nan_leb s t H)). reflexivity.
    + rewrite (proj2 (float_nan_leb e t H)). apply andb_false_r.
Qed.

(** ** The overlay *)

Lemma draw_lines_trace_eq wd result w y items :
  trace (draw_lines wd result w y items) =
  (trace wd ++ map (fun call => PutText result call.1 call.2) (text_calls w y items))%list.
Proof.
  revert wd y. induction items as [|[line [lw lh]] items IH]; intros wd y.
  - cbn [draw_lines text_calls map]. rewrite app_nil_r. reflexivity.
  - cbn [draw_lines text_calls map]. rewrite IH.
    unfold cv_putText, emit, update. cbn [trace fst snd].
    rewrite <- app_assoc. reflexivity.
Qed.

Lemma text_calls_texts w y (lines : list string) :
  map fst (text_calls w y (zip lines (map text_size lines))) = lines.
Proof.
  revert y. induction lines as [|line lines IH]; intros y; [reflexivity|].
  cbn [map zip zip_with text_calls]. destruct (text_size line) as [lw lh].
  cbn [map fst]. rewrite IH. reflexivity.
Qed.

Lemma overlay_subtitle_trace_eq wd frame_ f l ls :
  heap wd !! frame_ = Some f ->
  let n := List.length (heap wd) in
  trace (overlay_subtitle wd frame_ (l :: ls)).1 =
  (trace wd ++
   Rectangle (S n) (caption_rect_of f (l :: ls)).1 (caption_rect_of f (l :: ls)).2 [0; 0; 0]%Z
   :: AddWeighted (S n) (1 # 2) n (1 - (1 # 2)) 0 n
   :: map (fun call => PutText n call.1 call.2) (caption_calls f (l :: ls)))%list.
Proof.
  intros Hf n. unfold overlay_subtitle, np_copy, alloc. cbn [heap trace].
  rewrite (list_lookup_total_correct _ _ _ Hf), lookup_total_end.
  unfold caption_rect_of, caption_calls, caption_rect, block_size.
  destruct (shape2 f) as [h w]. cbn [fst snd].
  rewrite draw_lines_trace_eq.
  unfold cv_addWeighted, cv_rectangle, update, emit. cbn [heap trace].
  rewrite length_app. cbn [List.length]. rewrite Nat.add_1_r.
  rewrite <- !app_assoc. reflexivity.
Qed.

(** X7.  With lines to draw, [overlay_subtitle] makes exactly two buffers,
    the result and a scratch copy, and of the calls of cv2 that write to a
    buffer it makes these, in this order and no others: one filled
    rectangle on the scratch copy, one blend of the scratch copy into the
    result, and one text for each line, in the order of the lines, on the
    result.  ([cv2.getTextSize], which only measures, is called once for
    each line before them and leaves no event.) *)
Theorem overlay_subtitle_calls
    (wd : world) (frame_ : addr) (f : frame) (l : string) (ls : list string) :
  heap wd !! frame_ = Some f ->
  let n := List.length (heap wd) in
  let '(wd', result) := overlay_subtitle wd frame_ (l :: ls) in
  result = n /\
  List.length (heap wd') = (n + 2)%nat /\
  trace wd' =
    (trace wd ++
     Rectangle (S n) (caption_rect_of f (l :: ls)).1 (caption_rect_of f (l :: ls)).2 [0; 0; 0]%Z
     :: AddWeighted (S n) (1 # 2) n (1 - (1 # 2)) 0 n
     :: map (fun call => PutText n call.1 call.2) (caption_calls f (l :: ls)))%list /\
  map fst (caption_calls f (l :: ls)) = l :: ls.
Proof.
  intros Hf n.
  pose proof (overlay_subtitle_heap wd frame_ f l ls Hf) as Hheap.
  pose proof (overlay_subtitle_trace_eq wd frame_ f l ls Hf) as Htrace.
  destruct (overlay_subtitle wd frame_ (l :: ls)) as [wd' result].
  destruct Hheap as [-> [scratch Hheap]]. cbn [fst] in Htrace.
  split; [reflexivity|]. split; [|split; [exact Htrace|]].
  - rewrite Hheap, length_app. reflexivity.
  - unfold caption_calls. apply text_calls_texts.
Qed.

Lemma stacked_height_sum (items : list (string * (Z * Z))) :
  items <> [] ->
  stacked_height items =
  (sumZ (map (fun it => it.2.2) items)
   + (Z.of_nat (List.length items) - 1) * line_spacing)%Z.
Proof.
  induction items as [|[line [lw lh]] items IH]; [congruence|]. intros _.
  destruct items as [|it items].
  - cbn. unfold line_spacing. lia.
  - change (stacked_height ((line, (lw, lh)) :: it :: items))
      with (lh + line_spacing + stacked_height (it :: items))%Z.
    rewrite IH by discriminate.
    cbn [map sumZ fold_right snd List.length]. unfold line_spacing. lia.
Qed.

Lemma zip_heights (lines : list string) :
  map (fun it : string * (Z * Z) => it.2.2) (zip lines (map text_size lines)) =
  map snd (map text_size lines).
Proof.
  induction lines as [|line lines IH]; [reflexivity|].
  cbn [map zip zip_with snd]. rewrite IH. reflexivity.
Qed.

Lemma stacked_height_block (l : string) (ls : list string) :
  stacked_height (zip (l :: ls) (map text_size (l :: ls))) = (block_size (l :: ls)).2.
Proof.
  rewrite stacked_height_sum by discriminate.
  rewrite zip_heights. unfold block_size. cbn [snd]. rewrite py_sum_sumZ.
  rewrite length_zip_with, length_map, Nat.min_id. reflexivity.
Qed.

Lemma text_calls_last w y (items : list (string * (Z * Z))) it :
  last items = Some it ->
  last (text_calls w y items) =
  Some (it.1, ((w - it.2.1) / 2, y + stacked_height items)%Z).
Proof.
  revert y. induction items as [|[line [lw lh]] items IH]; intros y; [discriminate|].
  destruct items as [|it' items].
  - intros [= <-]. reflexivity.
  - intros Hlast. rewrite last_cons_cons in Hlast.
    change (text_calls w y ((line, (lw, lh)) :: it' :: items))
      with ((line, ((w - lw) / 2, y + lh)%Z)
              :: text_calls w (y + lh + line_spacing)%Z (it' :: items)).
    change (stacked_height ((line, (lw, lh)) :: it' :: items))
      with (lh + line_spacing + stacked_height (it' :: items))%Z.
    specialize (IH (y + lh + line_spacing)%Z Hlast).
    destruct (text_calls w (y + lh + line_spacing) (it' :: items)) as [|c cs] eqn:Hc;
      [discriminate|].
    rewrite last_cons_cons, IH. do 3 f_equal. lia.
Qed.

Lemma zip_last (lines : list string) line :
  last lines = Some line ->
  last (zip lines (map text_size lines)) = Some (line, text_size line).
Proof.
  induction lines as [|l0 lines IH]; [discriminate|].
  destruct lines as [|l1 lines]; [intros [= <-]; reflexivity|].
  intros H. rewrite last_cons_cons in H. specialize (IH H).
  cbn [map zip zip_with] in *. rewrite last_cons_cons. exact IH.
Qed.

(** X8.  Where the caption goes: the bottom edge of the rectangle is 15
    rows above the bottom of the frame and the base line of the last line
    [margin_bottom] rows above it, however many lines there are and
    however high they are; the rectangle is centred, its distance to the
    left edge and to the right edge of the frame differing by one column at
    most. *)
Theorem caption_placement (f : frame) (l : string) (ls : list string) :
  let h := (shape2 f).1 in
  let w := (shape2 f).2 in
  let pt1 := (caption_rect_of f (l :: ls)).1 in
  let pt2 := (caption_rect_of f (l :: ls)).2 in
  (pt2.2 = h - 15)%Z /\
  (0 <= (w - pt2.1) - pt1.1 <= 1)%Z /\
  exists line x,
    last (l :: ls) = Some line /\
    last (caption_calls f (l :: ls)) = Some (line, (x, (h - margin_bottom)%Z)).
Proof.
  intros h w pt1 pt2. subst pt1 pt2.
  unfold caption_rect_of, caption_rect. fold h w.
  destruct (block_size (l :: ls)) as [mw th] eqn:Hb. cbn [fst snd].
  split; [unfold margin_bottom; lia|]. split.
  - Z.to_euclidean_division_equations. lia.
  - destruct (last (l :: ls)) as [line|] eqn:Hlast.
    2:{ apply last_None in Hlast. discriminate. }
    exists line, ((w - (text_size line).1) / 2)%Z. split; [reflexivity|].
    unfold caption_calls. fold h w.
    rewrite (text_calls_last _ _ _ _ (zip_last _ _ Hlast)).
    rewrite stacked_height_block, Hb. cbn [fst snd]. do 3 f_equal. lia.
Qed.

Lemma stacked_height_nonneg (items : list (string * (Z * Z))) :
  Forall (fun it => (0 <= it.2.2)%Z) items -> (0 <= stacked_height items)%Z.
Proof.
  induction 1 as [|[line [lw lh]] items Hit _ IH]; [reflexivity|].
  destruct items as [|it items]; [exact Hit|].
  change (stacked_height ((line, (lw, lh)) :: it :: items))
    with (lh + line_spacing + stacked_height (it :: items))%Z.
  cbn [snd] in Hit. unfold line_spacing. lia.
Qed.

Lemma text_calls_box w y (items : list (string * (Z * Z))) call :
  Forall (fun it => (0 <= it.2.2)%Z) items ->
  call ∈ text_calls w y items ->
  exists it, it ∈ items /\ call.1 = it.1 /\ call.2.1 = ((w - it.2.1) / 2)%Z /\
             (y <= call.2.2 - it.2.2)%Z /\ (call.2.2 <= y + stacked_height items)%Z.
Proof.
  intros Hall. revert y. induction Hall as [|[line [lw lh]] items Hit Hall IH]; intros y.
  - intros H. inversion H.
  - cbn [text_calls]. intros [->|Hin]%elem_of_cons.
    + exists (line, (lw, lh)). cbn [fst snd] in *. split; [left|].
      repeat split; try lia.
      destruct items as [|it items]; [cbn; lia|].
      change (stacked_height ((line, (lw, lh)) :: it :: items))
        with (lh + line_spacing + stacked_height (it :: items))%Z.
      pose proof (stacked_height_nonneg _ Hall). unfold line_spacing. lia.
    + destruct (IH _ Hin) as (it & Hit' & H1 & H2 & H3 & H4).
      exists it. split; [right; exact Hit'|]. repeat split; try assumption.
      * cbn [snd] in Hit. unfold line_spacing in H3. lia.
      * destruct items as [|it0 items]; [inversion Hit'|].
        change (stacked_height ((line, (lw, lh)) :: it0 :: items))
          with (lh + line_spacing + stacked_height (it0 :: items))%Z. lia.
Qed.

Lemma zip_sizes (lines : list string) it :
  it ∈ zip lines (map text_size lines) -> it.1 ∈ lines /\ it.2 = text_size it.1.
Proof.
  induction lines as [|line lines IH]; [intros H; inversion H|].
  cbn [map zip zip_with]. intros [->|Hin]%elem_of_cons.
  - split; [left | reflexivity].
  - destruct (IH Hin) as [H1 H2]. split; [right; exact H1 | exact H2].
Qed.

(** X9.  When no line has a negative height, the box of every line that is
    drawn (its width from the origin to the right, its height from the base
    line up) lies inside the rectangle, the padding of 10 columns and 5
    rows left free on each side. *)
Theorem caption_text_inside_rectangle (f : frame) (l : string) (ls : list string) :
  Forall (fun line => (0 <= (text_size line).2)%Z) (l :: ls) ->
  let pt1 := (caption_rect_of f (l :: ls)).1 in
  let pt2 := (caption_rect_of f (l :: ls)).2 in
  forall line x y,
    (line, (x, y)) ∈ caption_calls f (l :: ls) ->
    (pt1.1 + 10 <= x)%Z /\ (x + (text_size line).1 <= pt2.1 - 10)%Z /\
    (pt1.2 + 5 <= y - (text_size line).2)%Z /\ (y <= pt2.2 - 5)%Z.
Proof.
  intros Hh pt1 pt2 line x y Hin. subst pt1 pt2.
  unfold caption_calls in Hin.
  apply text_calls_box in Hin as (it & Hit & H1 & H2 & H3 & H4).
  2:{ apply Forall_forall. intros it Hit. apply zip_sizes in Hit as [Hl ->].
      exact (proj1 (Forall_forall _ _) Hh _ Hl). }
  apply zip_sizes in Hit as [Hl Hsz]. cbn [fst snd] in H1, H2, H3, H4. subst line.
  rewrite Hsz in H2, H3. rewrite stacked_height_block in H4.
  assert ((text_size it.1).1 <= (block_size (l :: ls)).1)%Z as Hw.
  { unfold block_size. cbn [fst]. apply py_max_bound. rewrite <- list_fmap_compose.
    apply (list_elem_of_fmap_2 (fst ∘ text_size)), Hl. }
  unfold caption_rect_of, caption_rect.
  destruct (block_size (l :: ls)) as [mw th]. cbn [fst snd] in *.
  subst x. repeat split; try lia; Z.to_euclidean_division_equations; lia.
Qed.

(** ** The playback loop *)

Lemma on_key_stops output_dir tk wd st cur :
  let '(wd', ost') := on_key output_dir tk wd st cur in
  match ost' with
  | None => last (trace wd') = Some (Print "Quitting...")
  | Some st' => current_frame st' = current_frame st
  end.
Proof.
  unfold on_key.
  destruct (_ || _); [unfold emit; cbn [trace]; apply last_snoc|].
  destruct (_ =? 32)%Z; [reflexivity|].
  destruct (_ =? 115)%Z; reflexivity.
Qed.

Lemma loop_pass_stops cues output_dir tk wd st :
  (current_frame st = None -> paused st = false) ->
  let '(wd', ost') := loop_pass cues output_dir tk wd st in
  match ost' with
  | None => last (trace wd') = Some (Print "Quitting...") \/
            last (trace wd') = Some (Print "End of video.")
  | Some st' => current_frame st' <> None
  end.
Proof.
  intros Hinv. unfold loop_pass.
  assert (forall wd0 st0 cur, current_frame st0 = Some cur ->
            let '(wd', ost') := show_and_react cues output_dir tk wd0 st0 cur in
            match ost' with
            | None => last (trace wd') = Some (Print "Quitting...") \/
                      last (trace wd') = Some (Print "End of video.")
            | Some st' => current_frame st' <> None
            end) as Hshow.
  { intros wd0 st0 cur Hcur. unfold show_and_react.
    destruct (np_copy wd0 cur) as [wd1 d1].
    set (shown := match cues with
                  | [] => (wd1, d1)
                  | _ :: _ => _
                  end).
    destruct shown as [wd2 d2].
    match goal with |- context [on_key output_dir tk ?w st0 cur] =>
      pose proof (on_key_stops output_dir tk w st0 cur) as Hk;
      destruct (on_key output_dir tk w st0 cur) as [wd' [st'|]]
    end.
    - rewrite Hk, Hcur. discriminate.
    - left. exact Hk. }
  destruct (paused st) eqn:Hp.
  - destruct (current_frame st) as [cur|] eqn:Hcur.
    + apply (Hshow wd st cur Hcur).
    + specialize (Hinv eq_refl). discriminate.
  - destruct (t_read tk) as [f|].
    + unfold alloc. cbn [current_frame]. apply Hshow. reflexivity.
    + right. unfold emit. cbn [trace]. apply last_snoc.
Qed.

Lemma main_loop_stops cues output_dir ticks wd st wd' :
  (current_frame st = None -> paused st = false) ->
  main_loop cues output_dir ticks wd st = (wd', None) ->
  last (trace wd') = Some (Print "Quitting...") \/
  last (trace wd') = Some (Print "End of video.").
Proof.
  revert wd st. induction ticks as [|tk ticks IH]; intros wd st Hinv; [discriminate|].
  cbn [main_loop].
  pose proof (loop_pass_stops cues output_dir tk wd st Hinv) as H.
  destruct (loop_pass cues output_dir tk wd st) as [wd1 [st1|]].
  - apply IH. intros Hnone. contradiction.
  - intros [= <-]. exact H.
Qed.

(** X11.  From the state in which [main] enters it, the loop stops for two
    reasons only, and says which as the last thing it does: the key [q] or
    Esc, or the end of the video.  The test [current_frame is None] never
    ends it. *)
Theorem main_loop_stop_reason
    (cues : list cue) (output_dir : string) (ticks : list tick)
    (buffers : list frame) (wd' : world) :
  main_loop cues output_dir ticks (World buffers []) initial_player = (wd', None) ->
  last (trace wd') = Some (Print "Quitting...") \/
  last (trace wd') = Some (Print "End of video.").
Proof. apply main_loop_stops. reflexivity. Qed.

Lemma on_key_trace output_dir tk wd st cur :
  exists keyed,
    trace (on_key output_dir tk wd st cur).1 = (trace wd ++ keyed)%list /\
    forallb is_key_event keyed = true.
Proof.
  unfold on_key.
  destruct (_ || _); [eexists [_]; split; reflexivity|].
  destruct (_ =? 32)%Z; [exists []; rewrite app_nil_r; split; reflexivity|].
  destruct (_ =? 115)%Z.
  - eexists [_; _]. unfold emit. cbn [fst trace]. rewrite <- app_assoc. split; reflexivity.
  - exists []. rewrite app_nil_r. split; reflexivity.
Qed.

Lemma show_and_react_trace cues output_dir tk wd st cur f :
  heap wd !! cur = Some f ->
  exists drawn keyed,
    trace (show_and_react cues output_dir tk wd st cur).1 =
      (trace wd ++ drawn ++ Imshow window_name (displayed cues tk f) :: keyed)%list /\
    forallb is_drawing drawn = true /\ forallb is_key_event keyed = true.
Proof.
  intros Hf.
  assert (forall wd2 d2 drawn,
            trace wd2 = (trace wd ++ drawn)%list ->
            forallb is_drawing drawn = true ->
            heap wd2 !!! d2 = displayed cues tk f ->
            exists drawn keyed,
              trace (on_key output_dir tk
                       (emit (Imshow window_name (heap wd2 !!! d2)) wd2) st cur).1 =
                (trace wd ++ drawn
                   ++ Imshow window_name (displayed cues tk f) :: keyed)%list /\
              forallb is_drawing drawn = true /\
              forallb is_key_event keyed = true) as Hfin.
  { intros wd2 d2 drawn Ht Hdr Hshown.
    destruct (on_key_trace output_dir tk
                (emit (Imshow window_name (heap wd2 !!! d2)) wd2) st cur)
      as (keyed & Hk & Hkey).
    exists drawn, keyed. split; [|split; assumption].
    rewrite Hk. unfold emit. cbn [trace].
    rewrite Ht, Hshown, <- !app_assoc. reflexivity. }
  unfold show_and_react.
  destruct (np_copy wd cur) as [wd1 d1] eqn:Hcopy.
  unfold np_copy, alloc in Hcopy.
  rewrite (list_lookup_total_correct _ _ _ Hf) in Hcopy.
  injection Hcopy as <- <-.
  set (wd1 := World (heap wd ++ [f]) (trace wd)).
  assert (heap wd1 !! List.length (heap wd) = Some f) as Hd
    by (apply list_lookup_middle; reflexivity).
  unfold displayed in *.
  destruct cues as [|c cues'].
  - apply (Hfin wd1 _ []).
    + cbn [trace wd1]. rewrite app_nil_r. reflexivity.
    + reflexivity.
    + cbn [find_active_cue]. apply list_lookup_total_correct, Hd.
  - destruct (find_active_cue (c :: cues') _) as [[|l ls]|].
    + apply (Hfin wd1 _ []).
      * cbn [trace wd1]. rewrite app_nil_r. reflexivity.
      * reflexivity.
      * apply list_lookup_total_correct, Hd.
    + pose proof (overlay_subtitle_heap wd1 _ f l ls Hd) as Hheap.
      pose proof (overlay_subtitle_trace_eq wd1 _ f l ls Hd) as Htrace.
      destruct (overlay_subtitle wd1 (List.length (heap wd)) (l :: ls)) as [wd2 result].
      destruct Hheap as [-> [scratch Hheap]]. cbn [fst snd] in *.
      eapply Hfin.
      * exact Htrace.
      * cbn [forallb is_drawing andb]. rewrite forallb_forall. intros e He.
        apply in_map_iff in He as (call & <- & _). reflexivity.
      * rewrite Hheap. apply list_lookup_total_middle. reflexivity.
    + apply (Hfin wd1 _ []).
      * cbn [trace wd1]. rewrite app_nil_r. reflexivity.
      * reflexivity.
      * apply list_lookup_total_correct, Hd.
Qed.

(** X12.  What a pass shows.  Of the calls that leave an event
    ([cap.read], [cv2.rectangle], [cv2.addWeighted], [cv2.putText],
    [cv2.imshow], [cv2.imwrite], [print]), a pass that is not paused and
    gets a frame makes one [cap.read], then only calls that draw, then one
    [cv2.imshow], then only [print] and [cv2.imwrite]; a paused pass does
    the same without the [cap.read], on the frame it has.  What is shown
    is that frame, with the caption of the cue active at a thousandth of
    the position when there is one with lines, and untouched when there is
    none.  (The calls that only ask, [cap.get], [cv2.getTextSize] and
    [cv2.waitKey], are made too and leave no event.) *)
Theorem loop_pass_shows
    (cues : list cue) (output_dir : string) (tk : tick) (wd : world) (st : player) :
  (forall f, paused st = false -> t_read tk = Some f ->
     exists drawn keyed,
       trace (loop_pass cues output_dir tk wd st).1 =
         (trace wd ++ CapRead (Some f) :: drawn
            ++ Imshow window_name (displayed cues tk f) :: keyed)%list /\
       forallb is_drawing drawn = true /\ forallb is_key_event keyed = true) /\
  (forall cur f, paused st = true -> current_frame st = Some cur ->
     heap wd !! cur = Some f ->
     exists drawn keyed,
       trace (loop_pass cues output_dir tk wd st).1 =
         (trace wd ++ drawn ++ Imshow window_name (displayed cues tk f) :: keyed)%list /\
       forallb is_drawing drawn = true /\ forallb is_key_event keyed = true).
Proof.
  split.
  - intros f Hp Hread. unfold loop_pass. rewrite Hp, Hread.
    unfold alloc, emit. cbn [heap trace current_frame].
    match goal with |- context [show_and_react cues output_dir tk ?w ?s ?c] =>
      destruct (show_and_react_trace cues output_dir tk w s c f)
        as (drawn & keyed & Ht & Hd & Hk)
    end.
    + cbn [heap]. apply list_lookup_middle. reflexivity.
    + exists drawn, keyed. rewrite Ht. cbn [trace]. rewrite <- app_assoc.
      repeat split; assumption.
  - intros cur f Hp Hcur Hf. unfold loop_pass. rewrite Hp, Hcur.
    apply show_and_react_trace, Hf.
Qed.

(** ** The delay between two frames *)

Lemma int_of_round_aux_nonneg mx ex lx d :
  int_of_float (SF2Prim (binary_round_aux prec emax false mx ex lx)) = Ok d ->
  valid_binary (binary_round_aux prec emax false mx ex lx) = true ->
  (0 <= d)%Z.
Proof.
  intros H Hv. unfold int_of_float in H. rewrite Prim2SF_SF2Prim in H by exact Hv.
  clear Hv. unfold binary_round_aux in H.
  destruct (shr_fexp prec emax mx ex lx) as [mrs' e'].
  destruct (shr_fexp prec emax _ e' loc_Exact) as [mrs'' e''].
  destruct (shr_m mrs'') as [|m|m]; try discriminate.
  - injection H as <-. lia.
  - destruct (e'' <=? emax - prec)%Z; [|discriminate].
    injection H as <-. destruct (0 <=? e'')%Z eqn:He.
    + apply Z.mul_nonneg_nonneg; [lia|]. apply Z.pow_nonneg. lia.
    + apply Z.leb_gt in He. apply Z.div_pos; [lia|]. apply Z.pow_pos_nonneg; lia.
Qed.

Lemma SFleb_zero_false x :
  SFleb x (S754_zero false) = false ->
  x = S754_nan \/ x = S754_infinity false \/ exists m e, x = S754_finite false m e.
Proof.
  destruct x as [s|[]| |[] m e]; try (destruct s); cbn; try discriminate; eauto.
Qed.

(** X13.  The delay between two frames.  A frame rate that is zero or
    negative is replaced by 25, which gives 40 milliseconds; a frame rate
    that is not a number is not replaced and makes [int] raise
    [ValueError]; and whenever a delay comes out it is not negative. *)
Theorem frame_delay_range (fps : float) :
  ((fps <=? 0)%float = true -> frame_delay fps = Ok 40%Z) /\
  (is_nan fps = true -> frame_delay fps = Raise ValueError) /\
  (forall d, frame_delay fps = Ok d -> (0 <= d)%Z).
Proof.
  split; [|split].
  - intros H. unfold frame_delay. rewrite H. reflexivity.
  - intros H. unfold frame_delay.
    rewrite (proj1 (float_nan_leb fps 0 H)).
    unfold is_nan in H. rewrite negb_true_iff, FloatAxioms.eqb_spec in H.
    apply SFeqb_nan in H.
    unfold int_of_float. rewrite FloatAxioms.div_spec, H. reflexivity.
  - intros d. unfold frame_delay.
    destruct (fps <=? 0)%float eqn:Hle.
    + intros H. vm_compute in H. injection H as <-. lia.
    + rewrite FloatAxioms.leb_spec in Hle.
      change (Prim2SF 0) with (S754_zero false) in Hle.
      apply SFleb_zero_false in Hle.
      rewrite <- (SF2Prim_Prim2SF (1000 / fps)), FloatAxioms.div_spec.
      pose proof (Prim2SF_valid (1000 / fps)) as Hv.
      rewrite FloatAxioms.div_spec in Hv. revert Hv.
      destruct Hle as [-> | [-> | (m & e & ->)]].
      * intros _ H. vm_compute in H. discriminate.
      * intros _ H. vm_compute in H. injection H as <-. lia.
      * set (k := Prim2SF 1000). vm_compute in k. subst k.
        unfold SF64div, SFdiv.
        destruct (SFdiv_core_binary _ _ _ _ _ _) as [[mz ez] lz].
        cbn [xorb]. intros Hv H.
        exact (int_of_round_aux_nonneg mz ez lz d H Hv).
Qed.

(** ** Passes without a caption, and the second player *)

Lemma show_and_react_plain cues output_dir tk wd st cur :
  uncaptioned cues tk ->
  exists keyed,
    trace (show_and_react cues output_dir tk wd st cur).1 =
      (trace wd ++ Imshow window_name (heap wd !!! cur) :: keyed)%list /\
    forallb is_key_event keyed = true.
Proof.
  intros Hu. unfold show_and_react, np_copy, alloc.
  assert (forall wd2 d2,
            trace wd2 = trace wd -> heap wd2 !!! d2 = heap wd !!! cur ->
            exists keyed,
              trace (on_key output_dir tk
                       (emit (Imshow window_name (heap wd2 !!! d2)) wd2) st cur).1 =
                (trace wd ++ Imshow window_name (heap wd !!! cur) :: keyed)%list /\
              forallb is_key_event keyed = true) as Hfin.
  { intros wd2 d2 Ht Hd.
    destruct (on_key_trace output_dir tk
                (emit (Imshow window_name (heap wd2 !!! d2)) wd2) st cur)
      as (keyed & Hk & Hkey).
    exists keyed. split; [|assumption].
    rewrite Hk. unfold emit. cbn [trace].
    rewrite Ht, Hd, <- app_assoc. reflexivity. }
  destruct cues as [|c cues'].
  - apply Hfin; [reflexivity|]. cbn [heap]. apply lookup_total_end.
  - destruct (find_active_cue (c :: cues') _) as [[|l ls]|] eqn:Hfind.
    + apply Hfin; [reflexivity|]. cbn [heap]. apply lookup_total_end.
    + destruct (Hu l ls Hfind).
    + apply Hfin; [reflexivity|]. cbn [heap]. apply lookup_total_end.
Qed.

Lemma loop_pass_plain cues output_dir tk wd st :
  uncaptioned cues tk ->
  exists evs,
    trace (loop_pass cues output_dir tk wd st).1 = (trace wd ++ evs)%list /\
    forallb (fun e => negb (is_drawing e)) evs = true.
Proof.
  intros Hu.
  assert (forall wd0 st0 cur,
            exists evs,
              trace (show_and_react cues output_dir tk wd0 st0 cur).1 =
                (trace wd0 ++ evs)%list /\
              forallb (fun e => negb (is_drawing e)) evs = true) as Hshow.
  { intros wd0 st0 cur.
    destruct (show_and_react_plain cues output_dir tk wd0 st0 cur Hu)
      as (keyed & Ht & Hk).
    eexists. split; [exact Ht|]. cbn [forallb is_drawing negb andb].
    rewrite forallb_forall in Hk |- *. intros e He. specialize (Hk e He).
    destruct e; try discriminate; reflexivity. }
  unfold loop_pass. destruct (paused st).
  - destruct (current_frame st) as [cur|].
    + apply Hshow.
    + exists []. rewrite app_nil_r. split; reflexivity.
  - destruct (t_read tk) as [f|].
    + unfold alloc, emit. cbn [heap trace current_frame].
      match goal with |- context [show_and_react cues output_dir tk ?w ?s ?c] =>
        destruct (Hshow w s c) as (evs & Ht & He)
      end.
      exists (CapRead (Some f) :: evs). rewrite Ht. cbn [trace].
      rewrite <- app_assoc. split; [reflexivity|exact He].
    + eexists [_; _]. unfold emit. cbn [fst trace].
      rewrite <- app_assoc. split; reflexivity.
Qed.

Lemma main_loop_plain cues output_dir ticks wd st :
  Forall (uncaptioned cues) ticks ->
  exists evs,
    trace (main_loop cues output_dir ticks wd st).1 = (trace wd ++ evs)%list /\
    forallb (fun e => negb (is_drawing e)) evs = true.
Proof.
  intros Hu. revert wd st. induction Hu as [|tk ticks Htk _ IH]; intros wd st.
  - exists []. rewrite app_nil_r. split; reflexivity.
  - cbn [main_loop].
    destruct (loop_pass_plain cues output_dir tk wd st Htk) as (evs1 & Ht1 & He1).
    destruct (loop_pass cues output_dir tk wd st) as [wd' [st'|]]; cbn [fst] in Ht1.
    + destruct (IH wd' st') as (evs2 & Ht2 & He2).
      exists (evs1 ++ evs2)%list. rewrite Ht2, Ht1, <- app_assoc, forallb_app, He1, He2.
      split; reflexivity.
    + exists evs1. split; assumption.
Qed.

(** X14.  Nothing is drawn without a caption to draw: over passes at none
    of which a cue with lines is active, the loop calls neither
    [cv2.rectangle] nor [cv2.addWeighted] nor [cv2.putText]. *)
Theorem main_loop_draws_only_captions
    (cues : list cue) (output_dir : string) (ticks : list tick) (wd : world) (st : player) :
  Forall (uncaptioned cues) ticks ->
  exists evs,
    trace (main_loop cues output_dir ticks wd st).1 = (trace wd ++ evs)%list /\
    forallb (fun e => negb (is_drawing e)) evs = true.
Proof. apply main_loop_plain. Qed.

Lemma loop_pass_v2_eq output_dir tk wd st :
  loop_pass_v2 output_dir tk wd st = loop_pass [] output_dir tk wd st.
Proof. reflexivity. Qed.

Lemma main_loop_v2_eq output_dir ticks wd st :
  main_loop_v2 output_dir ticks wd st = main_loop [] output_dir ticks wd st.
Proof.
  revert wd st. induction ticks as [|tk ticks IH]; intros wd st; [reflexivity|].
  cbn [main_loop_v2 main_loop]. rewrite loop_pass_v2_eq.
  destruct (loop_pass [] output_dir tk wd st) as [wd' [st'|]]; [apply IH|reflexivity].
Qed.

(** X15.  From the same state and on the same answers of the capture and
    of the keyboard, the loop of [mkv_player_v2.py] and the loop of
    [mkv_player.py] run without cues leave the same buffers, end in the
    same way, and make the same calls of [cap.read], [cv2.imshow],
    [cv2.imwrite] and [print] with the same arguments in the same order;
    neither draws.  (The position that only [mkv_player.py] asks of the
    capture at each pass leaves no event.) *)
Theorem main_loop_v2_is_main_loop_without_cues
    (output_dir : string) (ticks : list tick) (wd : world) (st : player) :
  main_loop_v2 output_dir ticks wd st = main_loop [] output_dir ticks wd st /\
  exists evs,
    trace (main_loop_v2 output_dir ticks wd st).1 = (trace wd ++ evs)%list /\
    forallb (fun e => negb (is_drawing e)) evs = true.
Proof.
  split; [apply main_loop_v2_eq|]. rewrite main_loop_v2_eq. apply main_loop_plain.
  apply Forall_forall. intros tk _ l ls. discriminate.
Qed.

(** ** The keys *)

Lemma on_key_pause output_dir tk wd st cur wd' st' :
  on_key output_dir tk wd st cur = (wd', Some st') ->
  paused st' = xorb (paused st) (Z.land (t_key tk) 255 =? 32)%Z.
Proof.
  unfold on_key.
  destruct (_ || _); [discriminate|].
  destruct (_ =? 32)%Z.
  - intros H. injection H as _ <-. cbn [paused]. destruct (paused st); reflexivity.
  - destruct (_ =? 115)%Z; intros H; injection H as _ <-; symmetry; apply xorb_false_r.
Qed.

Lemma show_and_react_pause cues output_dir tk wd st cur wd' st' :
  show_and_react cues output_dir tk wd st cur = (wd', Some st') ->
  paused st' = xorb (paused st) (Z.land (t_key tk) 255 =? 32)%Z.
Proof.
  unfold show_and_react. destruct (np_copy wd cur) as [wd1 d1].
  destruct cues as [|c cues'].
  - apply on_key_pause.
  - destruct (find_active_cue (c :: cues') _) as [[|l ls]|].
    + apply on_key_pause.
    + destruct (overlay_subtitle wd1 d1 (l :: ls)) as [wd2 d2]. apply on_key_pause.
    + apply on_key_pause.
Qed.

Lemma loop_pass_pause cues output_dir tk wd st wd' st' :
  loop_pass cues output_dir tk wd st = (wd', Some st') ->
  paused st' = xorb (paused st) (Z.land (t_key tk) 255 =? 32)%Z.
Proof.
  unfold loop_pass. destruct (paused st) eqn:Hp.
  - destruct (current_frame st) as [cur|]; [|discriminate].
    intros H. apply show_and_react_pause in H. rewrite Hp in H. exact H.
  - destruct (t_read tk) as [f|]; [|discriminate].
    unfold alloc, emit. cbn [heap trace current_frame].
    intros H. apply show_and_react_pause in H. exact H.
Qed.

(** X16.  Only the space bar pauses and resumes: as long as the loop
    runs, the pause flag is what it was at the start, flipped once for each
    pass whose key is the space bar, whatever the other keys, the frames
    and the cues were. *)
Theorem pause_follows_space_bar
    (cues : list cue) (output_dir : string) (ticks : list tick)
    (wd wd' : world) (st st' : player) :
  main_loop cues output_dir ticks wd st = (wd', Some st') ->
  paused st' = xorb (paused st) (Nat.odd (space_presses ticks)).
Proof.
  revert wd st. induction ticks as [|tk ticks IH]; intros wd st.
  - intros H. injection H as _ <-. symmetry. apply xorb_false_r.
  - cbn [main_loop].
    destruct (loop_pass cues output_dir tk wd st) as [wd1 [st1|]] eqn:Hpass;
      [|discriminate].
    intros H. apply IH in H. apply loop_pass_pause in Hpass.
    rewrite H, Hpass. unfold space_presses. cbn [List.filter].
    destruct (Z.land (t_key tk) 255 =? 32)%Z.
    + cbn [List.length]. rewrite Nat.odd_succ, <- Nat.negb_odd.
      destruct (paused st), (Nat.odd _); reflexivity.
    + rewrite xorb_false_r. reflexivity.
Qed.

(** ** The files of the screenshots *)

Lemma append_cancel_l (a x y : string) : a ++ x = a ++ y -> x = y.
Proof.
  induction a as [|c a IH]; [auto|]. cbn [append]. intros H.
  injection H as H. apply IH, H.
Qed.

Lemma length_append (x y : string) :
  String.length (x ++ y) = (String.length x + String.length y)%nat.
Proof. induction x as [|c x IH]; [reflexivity|]. cbn [append String.length]. rewrite IH. reflexivity. Qed.

Lemma append_cancel_r (x y z : string) : x ++ z = y ++ z -> x = y.
Proof.
  revert y. induction x as [|c x IH]; intros [|d y] H.
  - reflexivity.
  - exfalso. apply (f_equal String.length) in H.
    cbn [append String.length] in H. rewrite length_append in H. lia.
  - exfalso. apply (f_equal String.length) in H.
    cbn [append String.length] in H. rewrite length_append in H. lia.
  - cbn [append] in H. injection H as -> H. f_equal. apply IH, H.
Qed.

Lemma prefix_append (a x : string) : String.prefix a (a ++ x) = true.
Proof.
  induction a as [|c a IH]; [destruct x; reflexivity|].
  cbn [append String.prefix]. destruct (ascii_dec c c); [exact IH|contradiction].
Qed.

(** X17.  The files of the screenshots.  The key [s] writes the current
    frame to one file and says so; that file lies under the output
    directory whatever the stamp is; and two stamps that differ give two
    files that differ, so that a screenshot overwrites no other one unless
    both were taken in the same millisecond. *)
Theorem screenshot_files
    (output_dir : string) (tk : tick) (wd : world) (st : player) (cur : addr) :
  (Z.land (t_key tk) 255 = 115%Z ->
   on_key output_dir tk wd st cur =
     (World (heap wd)
        (trace wd ++
         [Imwrite (screenshot_file output_dir (t_now tk)) (heap wd !!! cur);
          Print ("Saved screenshot to " ++ screenshot_file output_dir (t_now tk))])%list,
      Some st)) /\
  (forall stamp, String.prefix output_dir (screenshot_file output_dir stamp) = true) /\
  (forall stamp1 stamp2,
     screenshot_file output_dir stamp1 = screenshot_file output_dir stamp2 ->
     stamp1 = stamp2).
Proof.
  split; [|split].
  - intros H. unfold on_key. rewrite H. cbn [Z.eqb Pos.eqb orb].
    unfold emit, screenshot_file. cbn [heap trace].
    rewrite <- app_assoc. reflexivity.
  - intros stamp. unfold screenshot_file, path_join. cbn [append].
    destruct (_ || _); apply prefix_append.
  - intros stamp1 stamp2. unfold screenshot_file, path_join. cbn [append].
    destruct (_ || _); intros H; apply append_cancel_l in H.
    + injection H as H. apply (append_cancel_r _ _ ".png"), H.
    + injection H as H. apply (append_cancel_r _ _ ".png"), H.
Qed.

(** ** [main] *)

Lemma load_cues_ends fs sp :
  (load_cues fs sp).2 <> OutOfFuel /\
  (forall e, (load_cues fs sp).2 = Raised e ->
     (load_cues fs sp).1 = [] /\
     exists p, sp = Some p /\ (parse_srt fs p).2 = Raised e).
Proof.
  unfold load_cues. destruct sp as [p|]; [|split; [discriminate|intros e; discriminate]].
  destruct (PyStr.truthy p); [|split; [discriminate|intros e; discriminate]].
  unfold parse_srt. destruct (fs p) as [[text|]|] eqn:Hfs; cbn [fst snd].
  - pose proof (parse_lines_total (PyStr.splitlines text)) as Htot.
    destruct (parse_lines (PyStr.splitlines text)) as [[|c cs]|e'|] eqn:Hparse;
      cbn [fst snd]; (split; [try discriminate; try exact Htot|]); intros e He;
      try discriminate.
    split; [reflexivity|]. exists p. rewrite Hfs. cbn [snd]. split; [reflexivity|].
    rewrite Hparse. exact He.
  - split; [discriminate|]. intros e He. split; [reflexivity|].
    exists p. rewrite Hfs. split; [reflexivity | exact He].
  - split; [discriminate|intros e; discriminate].
Qed.

Lemma play_ends open_video a cues calls how :
  play open_video a cues = (calls, how) ->
  match how with
  | Exit status =>
      (status = 1%Z /\ isOpened (open_video (a_video a)) = false /\
       calls = [VideoCapture (a_video a);
                Did (Print ("Error: could not open video file '" ++ a_video a ++ "'."))]) \/
      (status = 0%Z /\
       exists pre m,
         calls = (VideoCapture (a_video a) :: NamedWindow window_name :: pre ++
                  [Did (Print m); Release; DestroyAllWindows])%list /\
         (m = "Quitting..." \/ m = "End of video."))
  | Uncaught e =>
      frame_delay (cap_fps (open_video (a_video a))) = Raise e /\
      calls = [VideoCapture (a_video a)]
  | Running => ~ In Release calls
  end.
Proof.
  unfold play. destruct (isOpened (open_video (a_video a))) eqn:Hopen; cbn [negb].
  2:{ intros H. injection H as <- <-. left. auto. }
  destruct (frame_delay _) as [d|e] eqn:Hdelay.
  2:{ intros H. injection H as <- <-. auto. }
  destruct (main_loop cues (a_output_dir a) _ (World [] []) initial_player)
    as [wd [st|]] eqn:Hloop; intros H; injection H as <- <-.
  - cbn [app In]. intros [H|[H|[H|H]]]; try discriminate.
    apply in_map_iff in H as (e & H & _). discriminate.
  - right. split; [reflexivity|].
    apply main_loop_stops in Hloop; [|reflexivity].
    assert (exists m, last (trace wd) = Some (Print m) /\
                      (m = "Quitting..." \/ m = "End of video.")) as (m & Hlast & Hm)
      by (destruct Hloop; eauto).
    apply last_Some in Hlast as [tr Htr].
    exists (Did (Print controls) :: map Did tr), m. split; [|exact Hm].
    rewrite Htr, map_app. cbn [app map]. rewrite <- app_assoc. reflexivity.
Qed.

(** X18.  How [main] ends, the calls of cv2 and [print] being taken not to
    raise.  [sys.exit(1)] is reached only when the video file is missing
    or cannot be opened, and then the last thing done was to print a
    message, and nothing was released.  The run ends with status 0 only
    after [os.makedirs] went through, the loop said why it stopped, and
    the capture and the windows were released.  An exception escapes from
    three places only: from [parse_srt], before anything is printed, made
    or opened; from [os.makedirs], which was the last call; from
    [int(1000 / fps)], right after the video was opened; in each case
    nothing is released.  As long as the loop runs nothing is released. *)
Theorem main_ends
    (fs : filesystem) (mkdirs : string -> option exn)
    (open_video : string -> capture) (a : args)
    (calls : list call) (how : finish) :
  main fs mkdirs open_video a = (calls, how) ->
  match how with
  | Exit status =>
      (status = 1%Z /\
       (fs (a_video a) = None \/ isOpened (open_video (a_video a)) = false) /\
       exists m, last calls = Some (Did (Print m)) /\ ~ In Release calls) \/
      (status = 0%Z /\
       os_makedirs mkdirs (a_output_dir a) = None /\
       In (Makedirs (a_output_dir a)) calls /\
       exists pre m,
         calls = (pre ++ [Did (Print m); Release; DestroyAllWindows])%list /\
         (m = "Quitting..." \/ m = "End of video."))
  | Uncaught e =>
      ~ In Release calls /\
      ((calls = [] /\
        exists p, resolve_subtitle fs a = Some p /\ (parse_srt fs p).2 = Raised e) \/
       (os_makedirs mkdirs (a_output_dir a) = Some e /\
        last calls = Some (Makedirs (a_output_dir a))) \/
       (frame_delay (cap_fps (open_video (a_video a))) = Raise e /\
        last calls = Some (VideoCapture (a_video a))))
  | Running => ~ In Release calls
  end.
Proof.
  unfold main. destruct (fs (a_video a)) as [video|] eqn:Hvideo.
  2:{ intros H. injection H as <- <-. left. split; [reflexivity|]. split; [auto|].
      eexists. split; [reflexivity|]. intros [H|[]]. discriminate. }
  pose proof (load_cues_ends fs (resolve_subtitle fs a)) as [Htot Hraise].
  destruct (load_cues fs (resolve_subtitle fs a)) as [printed loaded].
  cbn [fst snd] in Htot, Hraise.
  destruct loaded as [cues|e|]; [| |contradiction].
  2:{ intros H. injection H as <- <-.
      destruct (Hraise e eq_refl) as (-> & Hfile). split; [intros []|]. left. auto. }
  assert (forall c, In c (map (fun s => Did (Print s)) printed) -> c <> Release) as Hsaid.
  { intros c Hc. apply in_map_iff in Hc as (s & <- & _). discriminate. }
  destruct (os_makedirs mkdirs (a_output_dir a)) as [e0|] eqn:Hmk.
  { intros H. injection H as <- <-. split.
    - intros H. apply in_app_or in H as [H|[H|[]]]; [|discriminate].
      exact (Hsaid _ H eq_refl).
    - right. left. split; [reflexivity|]. apply last_snoc. }
  destruct (play open_video a cues) as [done how'] eqn:Hplay.
  intros H. injection H as <- <-. apply play_ends in Hplay.
  destruct how' as [status|e|].
  - destruct Hplay as [(-> & Hopen & ->)|(-> & pre & m & -> & Hm)].
    + left. split; [reflexivity|]. split; [auto|]. eexists. split.
      * rewrite last_app. reflexivity.
      * intros H. apply in_app_or in H as [H|[H|[H|[H|[]]]]]; try discriminate.
        exact (Hsaid _ H eq_refl).
    + right. split; [reflexivity|]. split; [reflexivity|].
      split; [apply in_or_app; right; left; reflexivity|].
      exists (map (fun s => Did (Print s)) printed ++
              Makedirs (a_output_dir a) :: VideoCapture (a_video a)
              :: NamedWindow window_name :: pre)%list, m.
      split; [|exact Hm]. rewrite <- app_assoc. reflexivity.
  - destruct Hplay as [Hdelay ->]. split.
    + intros H. apply in_app_or in H as [H|[H|[H|[]]]]; try discriminate.
      exact (Hsaid _ H eq_refl).
    + right. right. split; [exact Hdelay|]. rewrite last_app. reflexivity.
  - intros H. apply in_app_or in H as [H|[H|H]]; try discriminate.
    + exact (Hsaid _ H eq_refl).
    + exact (Hplay H).
Qed.

Lemma load_cues_without_arrows fs sp cues :
  (forall p text, sp = Some p -> fs p = Some (Readable text) ->
     arrow_lines (PyStr.splitlines text) = 0%nat) ->
  (load_cues fs sp).2 = Returned cues -> cues = [].
Proof.
  intros Hno. unfold load_cues. destruct sp as [p|]; [|intros [= <-]; reflexivity].
  destruct (PyStr.truthy p); [|intros [= <-]; reflexivity].
  unfold parse_srt. destruct (fs p) as [[text|]|] eqn:Hfs;
    [|discriminate|intros [= <-]; reflexivity].
  specialize (Hno p text eq_refl Hfs).
  destruct (parse_lines (PyStr.splitlines text)) as [[|c cs]|e|] eqn:Hparse;
    cbn [snd]; try discriminate; [intros [= <-]; reflexivity|].
  pose proof (cues_at_count _ 0 (List.length (PyStr.splitlines text)) (c :: cs)
                (srt_loop_cues_at _ _ 0 [] (c :: cs) I Hparse)) as Hle.
  rewrite drop_0, Hno in Hle. simpl in Hle. lia.
Qed.

Lemma play_plain open_video a :
  forallb (fun c => negb (draws c)) (play open_video a []).1 = true.
Proof.
  unfold play. destruct (negb _); [reflexivity|].
  destruct (frame_delay _); [|reflexivity].
  destruct (main_loop_plain [] (a_output_dir a) (cap_ticks (open_video (a_video a)))
              (World [] []) initial_player) as (evs & Ht & He).
  { apply Forall_forall. intros tk _ l ls. discriminate. }
  destruct (main_loop [] _ _ _ _) as [wd st]. cbn [fst trace app] in Ht. subst evs.
  assert (forallb (fun c => negb (draws c)) (map Did (trace wd)) = true) as Hd.
  { rewrite forallb_forall in He |- *. intros c Hc.
    apply in_map_iff in Hc as (e & <- & Hin). exact (He e Hin). }
  destruct st; cbn [fst app forallb draws negb andb]; [exact Hd|].
  rewrite forallb_app, Hd. reflexivity.
Qed.

(** X19.  [main] draws only with cues from a subtitle file: when it has no
    subtitle file, neither named nor found beside the video, or the file
    is not there, or none of its lines holds the separator, the whole run
    calls neither [cv2.rectangle] nor [cv2.addWeighted] nor
    [cv2.putText]. *)
Theorem main_draws_only_with_subtitles
    (fs : filesystem) (mkdirs : string -> option exn)
    (open_video : string -> capture) (a : args) :
  (forall p text, resolve_subtitle fs a = Some p -> fs p = Some (Readable text) ->
     arrow_lines (PyStr.splitlines text) = 0%nat) ->
  forallb (fun c => negb (draws c)) (main fs mkdirs open_video a).1 = true.
Proof.
  intros Hno. unfold main. destruct (fs (a_video a)) as [video|]; [|reflexivity].
  pose proof (load_cues_without_arrows fs (resolve_subtitle fs a)) as Hload.
  destruct (load_cues fs (resolve_subtitle fs a)) as [printed loaded].
  cbn [snd] in Hload.
  assert (forallb (fun c => negb (draws c)) (map (fun s => Did (Print s)) printed) = true)
    as Hsaid.
  { rewrite forallb_forall. intros c Hc. apply in_map_iff in Hc as (msg & <- & _).
    reflexivity. }
  destruct loaded as [cues|e|]; cbn [fst]; try exact Hsaid.
  rewrite (Hload cues Hno eq_refl).
  destruct (os_makedirs mkdirs (a_output_dir a)); cbn [fst].
  { rewrite forallb_app, Hsaid. reflexivity. }
  pose proof (play_plain open_video a) as Hplay.
  destruct (play open_video a []) as [done how]. cbn [fst] in *.
  rewrite forallb_app, Hsaid. cbn [forallb draws negb andb]. exact Hplay.
Qed.

(** X20.  With no subtitle file named and none beside the video, a run of
    [mkv_player.py] and a run of [mkv_player_v2.py] on the same video,
    output directory, capture and keys end in the same way after the same
    recorded calls in the same order: [print], [os.makedirs],
    [cv2.VideoCapture], [cv2.namedWindow], [cap.read], [cv2.imshow],
    [cv2.imwrite], [cap.release] and [cv2.destroyAllWindows].  The
    questions that only [mkv_player.py] asks ([os.path.splitext],
    [os.path.exists] for the subtitle file, the position of the capture)
    are not among the recorded calls. *)
Theorem main_v2_is_main_without_subtitles
    (fs : filesystem) (mkdirs : string -> option exn)
    (open_video : string -> capture) (video output_dir : string) :
  default_subtitle fs video = None ->
  main_v2 fs mkdirs open_video (ArgsV2 video output_dir) =
  main fs mkdirs open_video (Args video None output_dir).
Proof.
  intros Hnone. unfold main_v2, main, resolve_subtitle.
  cbn [v2_video v2_output_dir a_video a_subtitle a_output_dir].
  rewrite Hnone. destruct (fs video) as [found|]; [|reflexivity].
  cbn [load_cues map app].
  destruct (os_makedirs mkdirs output_dir); [reflexivity|].
  unfold play_v2, play.
  cbn [v2_video v2_output_dir a_video a_subtitle a_output_dir].
  rewrite main_loop_v2_eq. reflexivity.
Qed.

End Player.

(** * The claims at concrete inputs *)

(** Each claim that is stated under a hypothesis, at an input that meets
    the hypothesis. *)

Lemma parse_srt_known_good_block_witness :
  (fun _ : string => Some (Readable known_good_block)) "movie.srt" = Some (Readable known_good_block) /\
  parse_srt (fun _ => Some (Readable known_good_block)) "movie.srt" =
    ([], Returned [(1.5%float, 3%float, ["Hello"; "World"])]).
Proof.
  split; [reflexivity|].
  apply (parse_srt_known_good_block (fun _ => Some (Readable known_good_block)) "movie.srt").
  reflexivity.
Defined.

Lemma parse_srt_missing_file_witness :
  (fun _ : string => @None string) "movie.srt" = None /\
  parse_srt (fun _ => None) "movie.srt" =
    (["Subtitle file 'movie.srt' does not exist. Continuing without subtitles."],
     Returned []) /\
  forall t, find_active_cue [] t = None.
Proof.
  split; [reflexivity|].
  apply (parse_srt_missing_file (fun _ => None) "movie.srt"). reflexivity.
Defined.

Lemma overlay_subtitle_no_lines_witness :
  heap (World [demo_frame] []) !! 0%nat = Some demo_frame /\
  let '(wd', result) :=
    overlay_subtitle demo_text_size demo_put_text_px (World [demo_frame] []) 0 [] in
  heap wd' !! result = Some demo_frame /\
  trace wd' = [] /\
  heap wd' = [demo_frame; demo_frame] /\
  result <> 0%nat.
Proof.
  split; [reflexivity|].
  apply (overlay_subtitle_no_lines demo_text_size demo_put_text_px
           (World [demo_frame] []) 0 demo_frame).
  reflexivity.
Defined.

Lemma demo_put_text_px_channels text org x y (p : pixel) :
  List.length (demo_put_text_px text org x y p) = List.length p.
Proof.
  unfold demo_put_text_px. destruct (_ && _); [apply length_map | reflexivity].
Qed.

Lemma overlay_subtitle_frame_effect_witness :
  heap (World [demo_frame] []) !! 0%nat = Some demo_frame /\
  valid_frame demo_frame = true /\
  (forall text org x y (p : pixel),
     List.length (demo_put_text_px text org x y p) = List.length p) /\
  let '(wd', result) :=
    overlay_subtitle demo_text_size demo_put_text_px (World [demo_frame] []) 0 ["Hi"%string] in
  exists out,
    heap wd' !! result = Some out /\
    heap wd' !! 0%nat = Some demo_frame /\
    shape3 out = shape3 demo_frame.
Proof.
  split; [reflexivity|]. split; [reflexivity|]. split; [exact demo_put_text_px_channels|].
  pose proof (overlay_subtitle_frame_effect demo_text_size demo_put_text_px
                (World [demo_frame] []) 0 demo_frame "Hi"%string []
                eq_refl eq_refl demo_put_text_px_channels) as H.
  destruct (overlay_subtitle demo_text_size demo_put_text_px
              (World [demo_frame] []) 0 ["Hi"%string]) as [wd' result].
  destruct H as (out & H1 & H2 & _ & _ & _ & H3 & _).
  exists out. split; [exact H1|]. split; [exact H2 | exact H3].
Defined.

Lemma screenshot_is_raw_frame_witness :
  let cues := [(0%float, 5%float, ["Hi"%string])] in
  let ticks := [Tick (Some demo_frame) 1000%float 115 "20240101_120000_000"%string] in
  let wd :=
    (main_loop demo_text_size demo_put_text_px cues "shots"%string ticks
       (World [] []) initial_player).1 in
  let shown := captioned demo_text_size demo_put_text_px demo_frame ["Hi"%string] in
  let pre :=
    [CapRead (Some demo_frame);
     Rectangle 3 (3, 12)%Z (27, 25)%Z [0; 0; 0]%Z;
     AddWeighted 3 (1 # 2) 2 (1 - (1 # 2)) 0 2;
     PutText 2 "Hi"%string (13, 20)%Z;
     Imshow window_name shown] in
  let path := "shots/screenshot_20240101_120000_000.png"%string in
  let post := [Print "Saved screenshot to shots/screenshot_20240101_120000_000.png"%string] in
  trace wd = (pre ++ Imwrite path demo_frame :: post)%list /\
  exists before between,
    pre = (before ++ CapRead (Some demo_frame) :: between)%list /\
    forall e, e ∈ between -> forall r, e <> CapRead (Some r).
Proof.
  intros cues ticks wd shown pre path post.
  assert (trace wd = (pre ++ Imwrite path demo_frame :: post)%list) as Htrace
    by (vm_compute; reflexivity).
  split; [exact Htrace|].
  exact (screenshot_is_raw_frame demo_text_size demo_put_text_px cues "shots"%string
           ticks [] pre path demo_frame post Htrace).
Defined.

Lemma caption_block_and_backing_witness :
  heap (World [demo_frame] []) !! 0%nat = Some demo_frame /\
  (forall line, line ∈ ["Hi"%string; "there"%string] ->
     ((demo_text_size line).1 <=
      (block_size demo_text_size ["Hi"%string; "there"%string]).1)%Z).
Proof.
  split; [reflexivity|].
  apply (caption_block_and_backing demo_text_size demo_put_text_px
           (World [demo_frame] []) 0 demo_frame "Hi"%string ["there"%string]).
  reflexivity.
Defined.

Lemma degenerate_cue_never_matches_witness :
  (1 <? 5)%float = true /\
  find_active_cue ([] ++ (5%float, 1%float, ["late"]) :: [(0%float, 9%float, ["other"])])
                  3%float =
  find_active_cue ([] ++ [(0%float, 9%float, ["other"])]) 3%float /\
  exists cues,
    parse_srt (fun _ => Some (Readable degenerate_text)) "movie.srt" = ([], Returned cues) /\
    In (5%float, 1%float, ["late"]) cues.
Proof.
  pose proof (degenerate_cue_never_matches [] [(0%float, 9%float, ["other"])]
                5 1 ["late"] 3 eq_refl) as (_ & Hlookup & Hparse).
  split; [reflexivity|]. split; [exact Hlookup|].
  destruct (Hparse (fun _ => Some (Readable degenerate_text)) "movie.srt" degenerate_text
              1%nat "00:00:05,000 --> 00:00:01,000" "00:00:05,000" "00:00:01,000")
    as (cues & Hret & Hin & _).
  - reflexivity.
  - repeat constructor; vm_compute; lia.
  - right. split; [exact I|]. exists "1". split; reflexivity.
  - reflexivity.
  - reflexivity.
  - reflexivity.
  - reflexivity.
  - exists cues. split; [exact Hret | exact Hin].
Defined.


(** * The further properties at concrete inputs *)

(** Each further property that is stated under a hypothesis, at an input
    that meets the hypothesis. *)

Lemma parse_srt_ends_witness :
  (fun _ : string => Some (Readable known_good_block)) "movie.srt" =
    Some (Readable known_good_block) /\
  (parse_srt (fun _ => Some (Readable known_good_block)) "movie.srt").1 = [] /\
  (parse_srt (fun _ => Some (Readable known_good_block)) "movie.srt").2 <> OutOfFuel.
Proof.
  split; [reflexivity|].
  pose proof (parse_srt_ends (fun _ => Some (Readable known_good_block)) "movie.srt"
                (Readable known_good_block) eq_refl) as (H1 & H2 & _).
  split; [exact H1 | exact H2].
Defined.

Lemma parse_srt_cues_from_file_witness :
  (fun _ : string => Some (Readable known_good_block)) "movie.srt" = Some (Readable known_good_block) /\
  (parse_srt (fun _ => Some (Readable known_good_block)) "movie.srt").2 =
    Returned [(1.5%float, 3%float, ["Hello"; "World"])] /\
  cues_at (PyStr.splitlines known_good_block) 0
    (List.length (PyStr.splitlines known_good_block))
    [(1.5%float, 3%float, ["Hello"; "World"])].
Proof.
  split; [reflexivity|]. split; [reflexivity|].
  apply (parse_srt_cues_from_file (fun _ => Some (Readable known_good_block)) "movie.srt"
           known_good_block); reflexivity.
Defined.

Lemma parse_srt_cue_count_witness :
  (fun _ : string => Some (Readable known_good_block)) "movie.srt" = Some (Readable known_good_block) /\
  (parse_srt (fun _ => Some (Readable known_good_block)) "movie.srt").2 =
    Returned [(1.5%float, 3%float, ["Hello"; "World"])] /\
  (List.length [(1.5%float, 3%float, ["Hello"; "World"])] <=
   arrow_lines (PyStr.splitlines known_good_block))%nat.
Proof.
  split; [reflexivity|]. split; [reflexivity|].
  apply (parse_srt_cue_count (fun _ => Some (Readable known_good_block)) "movie.srt"
           known_good_block); reflexivity.
Defined.

Lemma parse_timecode_needs_comma_witness :
  PyStr.all_chars (fun c => negb (Ascii.eqb "," c)) "00:00:01.500" = true /\
  parse_timecode "00:00:01.500" = Raise ValueError.
Proof.
  split; [reflexivity|].
  apply (parse_timecode_needs_comma "00:00:01.500"). reflexivity.
Defined.

Lemma overlay_subtitle_calls_witness :
  heap (World [demo_frame] []) !! 0%nat = Some demo_frame /\
  let '(wd', result) :=
    overlay_subtitle demo_text_size demo_put_text_px (World [demo_frame] [])
      0 ["Hi"%string; "there"%string] in
  result = 1%nat /\ List.length (heap wd') = 3%nat.
Proof.
  split; [reflexivity|].
  pose proof (overlay_subtitle_calls demo_text_size demo_put_text_px
                (World [demo_frame] []) 0 demo_frame "Hi"%string ["there"%string]
                eq_refl) as H.
  cbv zeta in H.
  destruct (overlay_subtitle demo_text_size demo_put_text_px
              (World [demo_frame] []) 0 ["Hi"%string; "there"%string]) as [wd' result].
  destruct H as (H1 & H2 & _). split; [exact H1 | exact H2].
Defined.

Lemma caption_text_inside_rectangle_witness :
  Forall (fun line => (0 <= (demo_text_size line).2)%Z) ["Hi"%string; "there"%string] /\
  forall line x y,
    (line, (x, y)) ∈ caption_calls demo_text_size demo_frame ["Hi"%string; "there"%string] ->
    ((caption_rect_of demo_text_size demo_frame ["Hi"%string; "there"%string]).1.1 + 10 <= x)%Z.
Proof.
  assert (Forall (fun line => (0 <= (demo_text_size line).2)%Z)
            ["Hi"%string; "there"%string]) as Hh
    by (repeat constructor; simpl; lia).
  split; [exact Hh|]. intros line x y Hin.
  exact (proj1 (caption_text_inside_rectangle demo_text_size demo_put_text_px demo_frame
                  "Hi"%string ["there"%string] Hh line x y Hin)).
Defined.

Lemma main_loop_stop_reason_witness :
  let ticks := [Tick (Some demo_frame) 0%float (-1) ""%string; Tick None 40%float (-1) ""%string] in
  let wd' :=
    (main_loop demo_text_size demo_put_text_px [] "shots"%string ticks
       (World [] []) initial_player).1 in
  main_loop demo_text_size demo_put_text_px [] "shots"%string ticks
    (World [] []) initial_player = (wd', None) /\
  (last (trace wd') = Some (Print "Quitting..."%string) \/
   last (trace wd') = Some (Print "End of video."%string)).
Proof.
  intros ticks wd'.
  assert (main_loop demo_text_size demo_put_text_px [] "shots"%string ticks
            (World [] []) initial_player = (wd', None)) as Hrun
    by (vm_compute; reflexivity).
  split; [exact Hrun|].
  exact (main_loop_stop_reason demo_text_size demo_put_text_px [] "shots"%string
           ticks [] wd' Hrun).
Defined.

Lemma main_loop_draws_only_captions_witness :
  let cues := [(0%float, 5%float, ["Hi"%string])] in
  let ticks := [Tick (Some demo_frame) 9000%float (-1) ""%string] in
  Forall (uncaptioned cues) ticks /\
  exists evs,
    trace (main_loop demo_text_size demo_put_text_px cues "shots"%string ticks
             (World [] []) initial_player).1 = ([] ++ evs)%list /\
    forallb (fun e => negb (is_drawing e)) evs = true.
Proof.
  intros cues ticks.
  assert (Forall (uncaptioned cues) ticks) as Hu.
  { constructor; [|constructor]. intros l ls H. vm_compute in H. discriminate. }
  split; [exact Hu|].
  exact (main_loop_draws_only_captions demo_text_size demo_put_text_px cues
           "shots"%string ticks (World [] []) initial_player Hu).
Defined.

Lemma pause_follows_space_bar_witness :
  let ticks :=
    [Tick (Some demo_frame) 0%float 32 ""%string; Tick None 0%float (-1) ""%string;
     Tick None 0%float 288 ""%string; Tick (Some demo_frame) 40%float 32 ""%string] in
  let run :=
    main_loop demo_text_size demo_put_text_px [] "shots"%string ticks
      (World [] []) initial_player in
  run = (run.1, Some (Player true (Some 4%nat))) /\
  paused (Player true (Some 4%nat)) =
    xorb (paused initial_player) (Nat.odd (space_presses ticks)).
Proof.
  intros ticks run.
  assert (run = (run.1, Some (Player true (Some 4%nat)))) as Hrun
    by (vm_compute; reflexivity).
  split; [exact Hrun|].
  exact (pause_follows_space_bar demo_text_size demo_put_text_px [] "shots"%string
           ticks (World [] []) run.1 initial_player (Player true (Some 4%nat)) Hrun).
Defined.

Lemma main_ends_witness :
  let run := main demo_text_size demo_put_text_px demo_fs demo_mkdirs demo_capture demo_args in
  run = (run.1, Exit 0) /\
  In (Makedirs "shots"%string) run.1.
Proof.
  intros run.
  assert (run = (run.1, Exit 0)) as Hrun by (vm_compute; reflexivity).
  split; [exact Hrun|].
  pose proof (main_ends demo_text_size demo_put_text_px demo_fs demo_mkdirs demo_capture demo_args
                run.1 (Exit 0) Hrun) as [(H & _)|(_ & _ & H & _)].
  - discriminate H.
  - exact H.
Defined.

Lemma main_draws_only_with_subtitles_witness :
  (forall p text, resolve_subtitle demo_fs demo_args = Some p -> demo_fs p = Some (Readable text) ->
     arrow_lines (PyStr.splitlines text) = 0%nat) /\
  forallb (fun c => negb (draws c))
    (main demo_text_size demo_put_text_px demo_fs demo_mkdirs demo_capture demo_args).1 = true.
Proof.
  assert (forall p text, resolve_subtitle demo_fs demo_args = Some p ->
            demo_fs p = Some (Readable text) -> arrow_lines (PyStr.splitlines text) = 0%nat) as Hno.
  { intros p text H. vm_compute in H. discriminate. }
  split; [exact Hno|].
  exact (main_draws_only_with_subtitles demo_text_size demo_put_text_px
           demo_fs demo_mkdirs demo_capture demo_args Hno).
Defined.

Lemma main_v2_is_main_without_subtitles_witness :
  default_subtitle demo_fs "movie.mkv" = None /\
  main_v2 demo_fs demo_mkdirs demo_capture (ArgsV2 "movie.mkv" "shots") =
  main demo_text_size demo_put_text_px demo_fs demo_mkdirs demo_capture (Args "movie.mkv" None "shots").
Proof.
  split; [reflexivity|].
  apply (main_v2_is_main_without_subtitles demo_text_size demo_put_text_px
           demo_fs demo_mkdirs demo_capture "movie.mkv" "shots").
  reflexivity.
Defined.

(** * Examples *)

(** The two tolerated kinds of malformed text, on the specification's
    examples: a cue with a bad time code is dropped, a line without the
    separator is passed over, and the cue that follows is read. *)
Example malformed_timecode_dropped :
  parse_srt (fun _ => Some (Readable malformed_then_good)) "movie.srt"%string =
  ([], Returned [(4%float, 5%float, ["Bye"%string])]).
Proof. vm_compute. reflexivity. Qed.

Example noise_line_skipped :
  parse_srt (fun _ => Some (Readable noise_then_good)) "movie.srt"%string =
  ([], Returned [(4%float, 5%float, ["Bye"%string])]).
Proof. vm_compute. reflexivity. Qed.

(** Two lines of the small font make a block ten columns wide and
    sixteen rows high (3 + 3 and one gap of 10); the rectangle and the
    text call for one line on the small frame. *)
Example demo_block :
  block_size demo_text_size ["Hi"%string; "there"%string] = (10, 16)%Z /\
  caption_rect_of demo_text_size demo_frame ["Hi"%string] = ((3, 12), (27, 25))%Z /\
  caption_calls demo_text_size demo_frame ["Hi"%string] = [("Hi"%string, (13, 20)%Z)].
Proof. repeat split. Qed.

(** One pass with a cue active and the key [s]: the frame shown has the
    bar and the text, the frame saved is the frame read. *)
Example demo_screenshot :
  let wd :=
    (main_loop demo_text_size demo_put_text_px [(0%float, 5%float, ["Hi"%string])]
       "shots"%string
       [Tick (Some demo_frame) 1000%float 115 "20240101_120000_000"%string]
       (World [] []) initial_player).1 in
  exists shown,
    trace wd =
      [CapRead (Some demo_frame);
       Rectangle 3 (3, 12)%Z (27, 25)%Z [0; 0; 0]%Z;
       AddWeighted 3 (1 # 2) 2 (1 - (1 # 2)) 0 2;
       PutText 2 "Hi"%string (13, 20)%Z;
       Imshow window_name shown;
       Imwrite "shots/screenshot_20240101_120000_000.png"%string demo_frame;
       Print "Saved screenshot to shots/screenshot_20240101_120000_000.png"%string] /\
    pixel_at demo_frame 5 20 = Some [200%Z] /\
    pixel_at shown 5 20 = Some [100%Z] /\
    pixel_at shown 14 19 = Some [255%Z] /\
    pixel_at shown 0 0 = Some [200%Z].
Proof.
  eexists. split; [vm_compute; reflexivity|].
  vm_compute. repeat split.
Qed.

(** The delay for three frame rates: none, 30 frames a second, and a
    rate that is not a number. *)
Example demo_frame_delay :
  frame_delay 0%float = Ok 40%Z /\
  frame_delay 30%float = Ok 33%Z /\
  frame_delay nan = Raise ValueError.
Proof. vm_compute. repeat split. Qed.

(** The run of [main] above, call by call. *)
Example demo_main :
  main demo_text_size demo_put_text_px demo_fs demo_mkdirs demo_capture demo_args =
  ([Makedirs "shots"%string; VideoCapture "movie.mkv"%string;
    NamedWindow window_name; Did (Print controls);
    Did (CapRead (Some demo_frame)); Did (Imshow window_name demo_frame);
    Did (Print "Quitting..."%string); Release; DestroyAllWindows],
   Exit 0).
Proof. vm_compute. reflexivity. Qed.

(** A subtitle file beside the video is found from the name of the video
    and read, and the number of its cues is told. *)
Example demo_default_subtitle :
  let fs := fun p => if String.eqb p "clips/movie.mkv" then Some (Readable ""%string)
                     else if String.eqb p "clips/movie.srt" then Some (Readable known_good_block)
                     else None in
  resolve_subtitle fs (Args "clips/movie.mkv" None "shots") = Some "clips/movie.srt"%string /\
  load_cues fs (Some "clips/movie.srt"%string) =
    (["Loaded 1 subtitles from clips/movie.srt."%string],
     Returned [(1.5%float, 3%float, ["Hello"%string; "World"%string])]).
Proof. vm_compute. repeat split. Qed.
